(** * The cluster detector registry

    A shallow embedding of [DetectorRegistry]: the ordered collection of
    detector constructors, [add], and the detection pass [detectForCluster]
    with its fold over the settled detections and its final projection.

    JavaScript numbers are IEEE 754 binary64 values, so accuracies are
    primitive floats and [<=] is [PrimFloat.leb].  A JavaScript [Map] keeps
    its entries in an internal slot, apart from the own properties that
    [Object.entries] enumerates; both are part of the model.

    The Helm repository manager follows: the reading of the output of
    [helm env] and the arguments of [helm repo add]. *)

From Stdlib Require Import Floats.
From stdpp Require Import base option list strings gmap.

(** ** The pieces of the JavaScript runtime the pass relies on *)

Module JS.

(** Values that can be thrown, or be the reason of a rejected promise. *)
Inductive exn : Type :=
| TypeError (message : string)
| Thrown (reason : string).

(** How the evaluation of a block ends, and how a promise settles. *)
Inductive completion (A : Type) : Type :=
| Normal (a : A)
| Throw (e : exn).
Global Arguments Normal {A} a.
Global Arguments Throw {A} e.

Global Instance completion_ret : MRet completion := @Normal.
Global Instance completion_bind : MBind completion :=
  λ A B k c, match c with Normal a => k a | Throw e => Throw e end.

(** [try { block } catch { handler }] *)
Definition try_catch {A} (block : completion A) (handler : exn → completion A)
  : completion A :=
  match block with
  | Normal a => Normal a
  | Throw e => handler e
  end.

(** [for (const x of xs) { body }], threading the state the body updates;
    a throwing iteration ends the loop. *)
Fixpoint for_of {X S} (xs : list X) (body : S → X → completion S) (s : S)
  : completion S :=
  match xs with
  | [] => Normal s
  | x :: xs' => s' ← body s x; for_of xs' body s'
  end.

(** [o.prop] where [o] may be [undefined]. *)
Definition member {A B} (o : option A) (prop : A → B) : completion B :=
  match o with
  | Some a => Normal (prop a)
  | None => Throw (TypeError "Cannot read properties of undefined")
  end.

(** A [Map] instance: its own enumerable string-keyed properties, and the
    [[MapData]] slot that [has], [get] and [set] work on. *)
Record MapObject (T : Type) : Type := mkMap {
  own_enumerable : list (string * T);
  MapData : gmap string T
}.
Global Arguments mkMap {T} _ _.
Global Arguments own_enumerable {T} _.
Global Arguments MapData {T} _.

(** [new Map()] *)
Definition Map_new {T} : MapObject T :=
  {| own_enumerable := []; MapData := ∅ |}.

(** [m.has(k)] *)
Definition Map_has {T} (m : MapObject T) (k : string) : bool :=
  match MapData m !! k with Some _ => true | None => false end.

(** [m.get(k)], [undefined] being [None] *)
Definition Map_get {T} (m : MapObject T) (k : string) : option T :=
  MapData m !! k.

(** [m.set(k, v)]: only the slot changes. *)
Definition Map_set {T} (m : MapObject T) (k : string) (v : T) : MapObject T :=
  {| own_enumerable := own_enumerable m; MapData := <[k := v]> (MapData m) |}.

(** [Object.entries(o)]: the own enumerable string-keyed properties. *)
Definition Object_entries {T} (o : MapObject T) : list (string * T) :=
  own_enumerable o.

(** [Object.fromEntries(entries)]: a later entry overwrites an earlier one
    with the same key. *)
Definition Object_fromEntries {V} (entries : list (string * V)) : gmap string V :=
  fold_left (λ o kv, <[kv.1 := kv.2]> o) entries ∅.

(** Modelled from the spec: [iter.map] of common/utils, which is not among
    the sources; the projection step applies the function to every entry
    of the iterable, in order. *)
Definition iter_map {A B} (src : list A) (fn : A → B) : list B :=
  List.map fn src.

(** A promise: still pending (with the outcome it will settle to once the
    work behind it is done), or settled. *)
Inductive promise (A : Type) : Type :=
| Pending (outcome : completion A)
| Settled (outcome : completion A).
Global Arguments Pending {A} outcome.
Global Arguments Settled {A} outcome.

Definition outcome_of {A} (p : promise A) : completion A :=
  match p with Pending c => c | Settled c => c end.

(** The work behind promise [i] of an array of promises completes; nothing
    happens to a promise that is settled already. *)
Definition settle {A} (i : nat) (ps : list (promise A)) : list (promise A) :=
  match ps !! i with
  | Some (Pending c) => <[i := Settled c]> ps
  | _ => ps
  end.

End JS.

Import JS.

(** ** The registry *)

Section DetectorRegistry.
Context {Cluster Value : Type}.

(** Modelled from the spec: [ClusterDetectionResult] of
    base-cluster-detector, which is not among the sources: a value with
    its numeric accuracy. *)
Record ClusterDetectionResult : Type := mkResult {
  value : Value;
  accuracy : float
}.

(** Modelled from the spec: [BaseClusterDetector] of base-cluster-detector,
    which is not among the sources: an instance bound to one cluster, with
    the key it claims and the settlement of the promise [detect()] returns
    ([None] for a probe that resolves to no result). *)
Record BaseClusterDetector : Type := mkDetector {
  key : string;
  detect : completion (option ClusterDetectionResult)
}.

(** [new (cluster: Cluster) => BaseClusterDetector]; a constructor may throw. *)
Definition ClusterDetectionConstructor : Type :=
  Cluster → completion BaseClusterDetector.

Record DetectorRegistry : Type := mkRegistry {
  registry : list ClusterDetectionConstructor
}.

(** The array a fresh instance starts with: [observable.array([])]. *)
Definition new_DetectorRegistry : DetectorRegistry := {| registry := [] |}.

(** Objects live in a store; [this] is a location in it. *)
Definition loc : Type := positive.

(** [add(detectorClass) { this.registry.push(detectorClass); return this; }]:
    the updated store and the returned reference ([None] only for a
    dangling [this]). *)
Definition add (this : loc) (detectorClass : ClusterDetectionConstructor)
    (σ : gmap loc DetectorRegistry) : option (loc * gmap loc DetectorRegistry) :=
  match σ !! this with
  | Some obj =>
      Some (this, <[this := {| registry := registry obj ++ [detectorClass] |}]> σ)
  | None => None
  end.

(** The async arrow function handed to [this.registry.map]: the settlement
    of the promise it returns.  A throwing constructor, like a failing
    [detect()], rejects it. *)
Definition detection (cluster : Cluster) (DetectorClass : ClusterDetectionConstructor)
  : completion (string * option ClusterDetectionResult) :=
  detector ← DetectorClass cluster;
  data ← detect detector;
  mret (key detector, data).

(** [this.registry.map(async DetectorClass => ...)], settled. *)
Definition detections (this : DetectorRegistry) (cluster : Cluster)
  : list (completion (string * option ClusterDetectionResult)) :=
  detection cluster <$> registry this.

(** The condition of the [if]: [data && (!results.has(key) ||
    results.get(key).accuracy <= data.accuracy)], with its short-circuits. *)
Definition should_set (results : MapObject ClusterDetectionResult) (key : string)
    (data : option ClusterDetectionResult) : completion bool :=
  match data with
  | None => Normal false
  | Some data =>
      if negb (Map_has results key) then Normal true
      else stored ← member (Map_get results key) accuracy;
           Normal (PrimFloat.leb stored (accuracy data))
  end.

(** The [try] block of the loop body, for an awaited detection: the
    destructuring of what [await detection] gives (or throws), then the [if]. *)
Definition try_block (results : MapObject ClusterDetectionResult)
    (awaited : completion (string * option ClusterDetectionResult))
  : completion (MapObject ClusterDetectionResult) :=
  '(k, data) ← awaited;
  c ← should_set results k data;
  match c, data with
  | true, Some data => Normal (Map_set results k data)
  | _, _ => Normal results
  end.

(** One iteration: [try { ... } catch {}]. *)
Definition loop_body (results : MapObject ClusterDetectionResult)
    (awaited : completion (string * option ClusterDetectionResult))
  : completion (MapObject ClusterDetectionResult) :=
  try_catch (try_block results awaited) (λ _, Normal results).

(** The projection of the [return] statement. *)
Definition projection (results : MapObject ClusterDetectionResult)
  : gmap string Value :=
  Object_fromEntries
    (iter_map (Object_entries results) (λ kr, (kr.1, value kr.2))).

(** [async detectForCluster(cluster)]: the settlement of the promise it
    returns, every awaited detection having settled. *)
Definition detectForCluster (this : DetectorRegistry) (cluster : Cluster)
  : completion (gmap string Value) :=
  let results := Map_new in
  let detections := detections this cluster in
  results ← for_of detections loop_body results;
  mret (projection results).

(** *** What the loop leaves in [results] *)

(** The effect of one iteration on [results]. *)
Definition merge (results : MapObject ClusterDetectionResult)
    (awaited : completion (string * option ClusterDetectionResult))
  : MapObject ClusterDetectionResult :=
  match loop_body results awaited with
  | Normal results' => results'
  | Throw _ => results
  end.

(** [results] when the loop is over. *)
Definition best_results (this : DetectorRegistry) (cluster : Cluster)
  : MapObject ClusterDetectionResult :=
  fold_left merge (detections this cluster) Map_new.

(** *** The pass with its probes settling in any order

    [this.registry.map(async ...)] runs every arrow function up to its
    [await]: a constructor that throws has rejected its promise by then, any
    other promise is pending on the probe.  The probes then settle in an
    order of their own, while the loop awaits the promises in array order. *)

Definition launch (cluster : Cluster) (DetectorClass : ClusterDetectionConstructor)
  : promise (string * option ClusterDetectionResult) :=
  match DetectorClass cluster with
  | Throw e => Settled (Throw e)
  | Normal detector => Pending (data ← detect detector; mret (key detector, data))
  end.

(** The suspended call: the promises, the index of the one the loop awaits,
    and [results] (or what the loop threw). *)
Record pass : Type := mkPass {
  promises : list (promise (string * option ClusterDetectionResult));
  position : nat;
  running : completion (MapObject ClusterDetectionResult)
}.

(** The loop runs on for as long as the promise it awaits is settled. *)
Fixpoint resume (rest : list (promise (string * option ClusterDetectionResult)))
    (position : nat) (results : MapObject ClusterDetectionResult)
  : nat * completion (MapObject ClusterDetectionResult) :=
  match rest with
  | Settled awaited :: rest' =>
      match loop_body results awaited with
      | Normal results' => resume rest' (S position) results'
      | Throw e => (position, Throw e)
      end
  | _ => (position, Normal results)
  end.

(** The probe behind promise [i] completes; the loop, when it was waiting
    for that promise, runs on. *)
Definition on_settle (st : pass) (i : nat) : pass :=
  let ps := settle i (promises st) in
  match running st with
  | Normal results =>
      let nr := resume (drop (position st) ps) (position st) results in
      mkPass ps nr.1 nr.2
  | Throw e => mkPass ps (position st) (Throw e)
  end.

(** The call up to its first suspension. *)
Definition start (this : DetectorRegistry) (cluster : Cluster) : pass :=
  let ps := launch cluster <$> registry this in
  let nr := resume ps 0 Map_new in
  mkPass ps nr.1 nr.2.

(** The call, its probes completing in the given order. *)
Definition run_pass (completion_order : list nat) (this : DetectorRegistry)
    (cluster : Cluster) : pass :=
  fold_left on_settle completion_order (start this cluster).

(** What the call has returned: nothing while the loop is suspended. *)
Definition returned (st : pass) : option (completion (gmap string Value)) :=
  match running st with
  | Throw e => Some (Throw e)
  | Normal results =>
      if decide (position st = length (promises st))
      then Some (Normal (projection results))
      else None
  end.

Definition detectForCluster_scheduled (completion_order : list nat)
    (this : DetectorRegistry) (cluster : Cluster)
  : option (completion (gmap string Value)) :=
  returned (run_pass completion_order this cluster).

(** What holds of a suspended pass over the detections [ds]. *)
Definition pass_inv (ds : list (completion (string * option ClusterDetectionResult)))
    (st : pass) : Prop :=
  outcome_of <$> promises st = ds
  ∧ position st ≤ length ds
  ∧ running st = Normal (fold_left merge (take (position st) ds) Map_new)
  ∧ ∀ c, promises st !! position st ≠ Some (Settled c).

(** Every probe completes at some point of the order. *)
Definition settles_all (completion_order : list nat) (this : DetectorRegistry) : Prop :=
  ∀ i, i < length (registry this) → i ∈ completion_order.

(** Two settled detections agree on success or failure, on the key and on
    the accuracy (not necessarily on the value). *)
Definition same_outcome
    (a b : completion (string * option ClusterDetectionResult)) : Prop :=
  match a, b with
  | Throw _, Throw _ => True
  | Normal (ka, da), Normal (kb, db) => ka = kb ∧ accuracy <$> da = accuracy <$> db
  | _, _ => False
  end.

(** Two [results] with the same keys and the same accuracies. *)
Definition same_accuracies (m1 m2 : MapObject ClusterDetectionResult) : Prop :=
  ∀ k, accuracy <$> MapData m1 !! k = accuracy <$> MapData m2 !! k.

(** The detector built by [DetectorClass] for [cluster] fails in [detect()]. *)
Definition detect_fails (cluster : Cluster) (DetectorClass : ClusterDetectionConstructor)
  : Prop :=
  ∃ detector e, DetectorClass cluster = Normal detector ∧ detect detector = Throw e.

End DetectorRegistry.

Global Arguments ClusterDetectionResult : clear implicits.
Global Arguments BaseClusterDetector : clear implicits.
Global Arguments ClusterDetectionConstructor : clear implicits.
Global Arguments DetectorRegistry : clear implicits.
Global Arguments pass : clear implicits.

(** ** Runs of the registered detectors

    What a probe finds is not a function of the cluster handle alone: the
    constructor and [detect()] reach out to the cluster, and two runs of
    one constructor may end differently.  Here a constructor is given the
    handle together with the state of the world its run meets, and a pass
    is given, for every position in the array, the state the run launched
    from that position meets. *)

Section Runs.
Context {Cluster World Value : Type}.

(** [this.registry.map(async DetectorClass => ...)], settled: one run for
    every element of the array, the one at index [i] in the world
    [worlds i]. *)
Definition detections_in (worlds : nat → World)
    (this : DetectorRegistry (Cluster * World) Value) (cluster : Cluster)
  : list (completion (string * option (ClusterDetectionResult Value))) :=
  imap (λ i DetectorClass, detection (cluster, worlds i) DetectorClass) (registry this).

(** [async detectForCluster(cluster)] over these runs. *)
Definition detectForCluster_in (worlds : nat → World)
    (this : DetectorRegistry (Cluster * World) Value) (cluster : Cluster)
  : completion (gmap string Value) :=
  let results := Map_new in
  let detections := detections_in worlds this cluster in
  results ← for_of detections loop_body results;
  mret (projection results).

(** [results] when the loop over these runs is over. *)
Definition best_results_in (worlds : nat → World)
    (this : DetectorRegistry (Cluster * World) Value) (cluster : Cluster)
  : MapObject (ClusterDetectionResult Value) :=
  fold_left merge (detections_in worlds this cluster) Map_new.

End Runs.

Section MergeInWords.
Context {Cluster Value : Type}.

(** In the spec's words (4.2, step 4): what one run contributes for a key,
    a result when the detector built claims the key and its operation
    returned one, nothing when the construction or the operation failed,
    when no result was returned, or when another key is claimed. *)
Definition spec_contribution (k : string)
    (DetectorClass : ClusterDetectionConstructor Cluster Value) (cluster : Cluster)
  : option (ClusterDetectionResult Value) :=
  match DetectorClass cluster with
  | Normal detector =>
      match detect detector with
      | Normal (Some d) => if decide (key detector = k) then Some d else None
      | _ => None
      end
  | Throw _ => None
  end.

(** In the spec's words (4.2, step 4): a contribution replaces the stored
    entry when the key is not yet present or the stored accuracy is less
    than or equal to the new one; nothing contributed changes nothing. *)
Definition spec_fold_step (stored contributed : option (ClusterDetectionResult Value))
  : option (ClusterDetectionResult Value) :=
  match contributed, stored with
  | None, _ => stored
  | Some d, None => Some d
  | Some d, Some s => if PrimFloat.leb (accuracy s) (accuracy d) then Some d else Some s
  end.

End MergeInWords.

(** ** Concrete detectors, for the scenarios

    The cluster plays no part in them; values are strings. *)

(** A detector that claims [k] and resolves to [v] with accuracy [a]. *)
Definition succeeding (k v : string) (a : float)
  : ClusterDetectionConstructor unit string :=
  λ _, Normal {| key := k;
                 detect := Normal (Some {| value := v; accuracy := a |}) |}.

(** A detector that claims [k] and whose [detect()] rejects. *)
Definition failing (k reason : string) : ClusterDetectionConstructor unit string :=
  λ _, Normal {| key := k; detect := Throw (Thrown reason) |}.

(** A constructor that throws. *)
Definition unconstructible (reason : string) : ClusterDetectionConstructor unit string :=
  λ _, Throw (Thrown reason).

Definition kind_1 := succeeding "distribution" "kind" 1.
Definition k3s_5 := succeeding "distribution" "k3s" 5.
Definition aws_3 := succeeding "cloudProvider" "aws" 3.
Definition gcp_3 := succeeding "cloudProvider" "gcp" 3.
Definition cloud_down := failing "cloudProvider" "connection refused".

(** Detectors whose runs meet a world where the cluster answers or not. *)

(** [kind_1], whatever the world. *)
Definition kind_1_anywhere : ClusterDetectionConstructor (unit * bool) string :=
  λ cw, kind_1 cw.1.

(** A detector for "distribution" whose [detect()] resolves to "k3s" with
    accuracy 5 when the cluster answers and rejects when it does not. *)
Definition k3s_5_when_reachable : ClusterDetectionConstructor (unit * bool) string :=
  λ cw, Normal {| key := "distribution";
                  detect := if cw.2
                            then Normal (Some {| value := "k3s"; accuracy := 5 |})
                            else Throw (Thrown "timeout") |}.

(** The cluster answers the run launched from index 2 only. *)
Definition reachable_at_2 : nat → bool := λ i, Nat.eqb i 2.

(** ** The Helm repository manager

    The pure parts of [HelmRepoManager]: the arguments its static methods
    hand to [executeHelm], and the reading of the output of [helm env].
    The helm binary, the file system and the logger's sink are outside. *)

Module Helm.

(** *** The output of [helm env]

    Here a string is the sequence of its UTF-16 code units, since the
    regular expressions tell line terminators from other characters. *)

Abbreviation jsstring := (list N).

Definition LF : N := 10.
Definition CR : N := 13.
Definition LS : N := 8232.
Definition PS : N := 8233.
Definition EQUALS : N := 61.

(** The characters [.] does not match (no [s] flag is set). *)
Definition line_terminator (c : N) : bool :=
  (c =? LF)%N || (c =? CR)%N || (c =? LS)%N || (c =? PS)%N.

(** [s.split(/\r?\n/)], [piece] being what was read since the last
    separator: a separator is a line feed, with the carriage return right
    before it when there is one. *)
Fixpoint split_from (piece s : jsstring) : list jsstring :=
  match s with
  | [] => [piece]
  | c :: rest =>
      if (c =? LF)%N then piece :: split_from [] rest
      else
        match rest with
        | c' :: rest' =>
            if (c =? CR)%N && (c' =? LF)%N then piece :: split_from [] rest'
            else split_from (piece ++ [c]) rest
        | [] => split_from (piece ++ [c]) rest
        end
  end.

Definition split_lines (output : jsstring) : list jsstring := split_from [] output.

(** [line.match(envVarMatcher)]: the regular expression asks, from the
    start of the line to its end, for a group [key] of characters other
    than [=], as many as possible, then [=], then a group [value] of
    characters that [.] matches.  [key] is what the first group has taken
    so far; the result is the two groups of the match, [None] for [null]. *)
Fixpoint match_from (key line : jsstring) : option (jsstring * jsstring) :=
  match line with
  | [] => None
  | c :: rest =>
      if (c =? EQUALS)%N then
        if forallb (λ c, negb (line_terminator c)) rest then Some (key, rest) else None
      else match_from (key ++ [c]) rest
  end.

Definition envVarMatcher (line : jsstring) : option (jsstring * jsstring) :=
  match_from [] line.

(** Modelled from the spec: [iter.filterMap] of common/utils, which is not
    among the sources and which the spec does not describe; it is taken, as
    its name and its use here say, to apply the function to every element
    of the iterable, in order, and to keep the results that are not falsy,
    here the matches. *)
Definition iter_filterMap {A B} (src : list A) (fn : A → option B) : list B :=
  omap fn src.

Section ParseHelmEnv.
(** [JSON.parse], with the values it gives. *)
Context {J : Type} (JSON_parse : jsstring → completion J).

(** [Object.fromEntries(iter.map(iter.filterMap(output.split(/\r?\n/),
    line => line.match(envVarMatcher)), ({ groups: { key, value }}) =>
    [key, JSON.parse(value)]))]: the values are parsed in the order of the
    lines and the first [JSON.parse] that throws ends it all; otherwise a
    later entry overwrites an earlier one with the same key. *)
Definition parseHelmEnv_output (output : jsstring) : completion (gmap jsstring J) :=
  for_of (iter_filterMap (split_lines output) envVarMatcher)
    (λ env kv, v ← JSON_parse kv.2; mret (<[kv.1 := v]> env)) ∅.

(** [parseHelmEnv()], from the settlement of [executeHelm(["env"])]. *)
Definition parseHelmEnv (helm_env : completion jsstring) : completion (gmap jsstring J) :=
  output ← helm_env;
  parseHelmEnv_output output.

End ParseHelmEnv.

(** *** The arguments of [helm repo]

    Here strings are only tested for being empty and handed on. *)

Record HelmRepo : Type := mkHelmRepo {
  name : string;
  url : string;
  cacheFilePath : option string;
  caFile : option string;
  certFile : option string;
  insecureSkipTlsVerify : option bool;
  keyFile : option string;
  username : option string;
  password : option string
}.

(** [if (attribute) { args.push(flag, attribute); }]: [undefined] and the
    empty string are falsy. *)
Definition push_attribute (args : list string) (flag : string)
    (attribute : option string) : list string :=
  match attribute with
  | Some v => if String.eqb v EmptyString then args else args ++ [flag; v]
  | None => args
  end.

(** An attribute that is neither [undefined] nor empty. *)
Definition given (attribute : option string) : bool :=
  match attribute with
  | Some v => negb (String.eqb v EmptyString)
  | None => false
  end.

(** The [args] array [addCustomRepo] builds. *)
Definition addCustomRepo_args (repoAttributes : HelmRepo) : list string :=
  let args := ["repo"; "add"; name repoAttributes; url repoAttributes] in
  let args :=
    match insecureSkipTlsVerify repoAttributes with
    | Some true => args ++ ["--insecure-skip-tls-verify"]
    | _ => args
    end in
  let args := push_attribute args "--username" (username repoAttributes) in
  let args := push_attribute args "--password" (password repoAttributes) in
  let args := push_attribute args "--ca-file" (caFile repoAttributes) in
  let args := push_attribute args "--key-file" (keyFile repoAttributes) in
  let args := push_attribute args "--cert-file" (certFile repoAttributes) in
  args.

(** [`[HELM]: adding repo "${name}" from ${url}`] *)
Definition adding_repo_message (repo : HelmRepo) : string :=
  "[HELM]: adding repo " +:+ String (Ascii.ascii_of_nat 34) (name repo)
  +:+ String (Ascii.ascii_of_nat 34) " from " +:+ url repo.

Section Commands.
(** [HelmRepoManager.executeHelm]: what running helm with these arguments
    settles to. *)
Context (executeHelm : list string → completion string).

(** Each method gives the lines it logs with [logger.info] and the
    settlement of the promise it returns. *)

Definition addRepo (repo : HelmRepo) : list string * completion unit :=
  ([adding_repo_message repo],
   _ ← executeHelm ["repo"; "add"; name repo; url repo]; mret ()).

Definition addCustomRepo (repoAttributes : HelmRepo) : list string * completion unit :=
  ([adding_repo_message repoAttributes],
   _ ← executeHelm (addCustomRepo_args repoAttributes); mret ()).

End Commands.

(** The repository [repositories()] adds when there is none. *)
Definition bitnami : HelmRepo :=
  {| name := "bitnami"; url := "https://charts.bitnami.com/bitnami";
     cacheFilePath := None; caFile := None; certFile := None;
     insecureSkipTlsVerify := None; keyFile := None;
     username := None; password := None |}.

End Helm.

Section Properties.
Context {Cluster Value : Type}.
Implicit Types (results : MapObject (ClusterDetectionResult Value)).

(** ** Lemmas on the runtime pieces *)

Lemma for_of_total {X S} (xs : list X) (body : S → X → completion S) (f : S → X → S) :
  (∀ s x, body s x = Normal (f s x)) →
  ∀ s, for_of xs body s = Normal (fold_left f xs s).
Proof.
  intros Hbody. induction xs as [|x xs IH]; intros s; simpl; [done|].
  rewrite Hbody. simpl. apply IH.
Qed.

Lemma settle_outcomes {A} i (ps : list (promise A)) :
  outcome_of <$> settle i ps = outcome_of <$> ps.
Proof.
  unfold settle. destruct (ps !! i) as [[c|c]|] eqn:Hi; [|done..].
  rewrite list_fmap_insert. apply list_insert_id.
  by rewrite list_lookup_fmap, Hi.
Qed.

Lemma length_settle {A} i (ps : list (promise A)) : length (settle i ps) = length ps.
Proof.
  unfold settle. destruct (ps !! i) as [[c|c]|]; [|done..]. apply length_insert.
Qed.

Lemma settle_settles {A} i (ps : list (promise A)) :
  i < length ps → ∃ c, settle i ps !! i = Some (Settled c).
Proof.
  intros Hi. unfold settle.
  destruct (lookup_lt_is_Some_2 ps i Hi) as [[c|c] Hp]; rewrite Hp.
  - exists c. by apply list_lookup_insert_eq.
  - eauto.
Qed.

Lemma settle_keeps_settled {A} i j (ps : list (promise A)) c :
  ps !! j = Some (Settled c) → settle i ps !! j = Some (Settled c).
Proof.
  intros Hj. unfold settle. destruct (ps !! i) as [[c'|c']|] eqn:Hi; [|done..].
  rewrite list_lookup_insert_ne; [done|]. intros ->. congruence.
Qed.

(** ** The loop body *)

Lemma should_set_total results k data :
  should_set results k data =
  Normal match data with
         | None => false
         | Some d =>
             match MapData results !! k with
             | None => true
             | Some stored => PrimFloat.leb (accuracy stored) (accuracy d)
             end
         end.
Proof.
  unfold should_set, Map_has, Map_get, member.
  destruct data as [d|]; [|done].
  by destruct (MapData results !! k).
Qed.

Lemma loop_body_total results awaited :
  loop_body results awaited = Normal (merge results awaited).
Proof.
  unfold merge, loop_body, try_block.
  destruct awaited as [[k data]|e]; simpl; [|done].
  rewrite should_set_total. simpl.
  by destruct data as [d|]; [destruct (MapData results !! k) as [s|];
    [destruct (PrimFloat.leb _ _)|]|].
Qed.

Lemma merge_Throw results e : merge results (Throw e) = results.
Proof. reflexivity. Qed.

Lemma merge_no_result results k : merge results (Normal (k, None)) = results.
Proof. reflexivity. Qed.

Lemma merge_result results k (d : ClusterDetectionResult Value) :
  merge results (Normal (k, Some d)) =
  match MapData results !! k with
  | None => Map_set results k d
  | Some stored =>
      if PrimFloat.leb (accuracy stored) (accuracy d)
      then Map_set results k d else results
  end.
Proof.
  unfold merge, loop_body, try_block, should_set, Map_has, Map_get, member. simpl.
  destruct (MapData results !! k) as [stored|]; simpl; [|done].
  by destruct (PrimFloat.leb _ _).
Qed.

(** Whatever is awaited, an iteration leaves [results] alone or calls
    [results.set] once. *)
Lemma merge_cases results (awaited : completion (string * option (ClusterDetectionResult Value))) :
  merge results awaited = results ∨
  ∃ k d, awaited = Normal (k, Some d) ∧ merge results awaited = Map_set results k d.
Proof.
  destruct awaited as [[k [d|]]|e]; [|by left..].
  rewrite merge_result. destruct (MapData results !! k) as [stored|].
  - destruct (PrimFloat.leb _ _); [right; eauto | by left].
  - right; eauto.
Qed.

Lemma merge_Object_entries results
    (awaited : completion (string * option (ClusterDetectionResult Value))) :
  Object_entries (merge results awaited) = Object_entries results.
Proof. by destruct (merge_cases results awaited) as [->|(k & d & _ & ->)]. Qed.

Lemma fold_merge_Object_entries
    (ds : list (completion (string * option (ClusterDetectionResult Value)))) results :
  Object_entries (fold_left merge ds results) = Object_entries results.
Proof.
  revert results. induction ds as [|d ds IH]; intros results; simpl; [done|].
  by rewrite IH, merge_Object_entries.
Qed.

Lemma best_results_Object_entries (this : DetectorRegistry Cluster Value) cluster :
  Object_entries (best_results this cluster) = [].
Proof. unfold best_results. by rewrite fold_merge_Object_entries. Qed.

(** The call resolves, to the projection of what the loop left in [results]. *)
Lemma detectForCluster_best_results (this : DetectorRegistry Cluster Value) cluster :
  detectForCluster this cluster = Normal (projection (best_results this cluster)).
Proof.
  unfold detectForCluster, best_results.
  by rewrite (for_of_total _ _ merge loop_body_total).
Qed.

Lemma projection_no_own_property results :
  Object_entries results = [] → projection results = (∅ : gmap string Value).
Proof. unfold projection. by intros ->. Qed.

(** A key is in the slot of [results] after an iteration iff it was there
    before or the awaited detection brought a result for it. *)
Lemma merge_is_Some results
    (awaited : completion (string * option (ClusterDetectionResult Value))) k :
  is_Some (MapData (merge results awaited) !! k) ↔
  is_Some (MapData results !! k) ∨ ∃ d, awaited = Normal (k, Some d).
Proof.
  destruct awaited as [[k' [d|]]|e].
  - rewrite merge_result. destruct (decide (k' = k)) as [->|Hne].
    + split; [intros _|intros _].
      * right; eauto.
      * destruct (MapData results !! k) as [stored|] eqn:Hk.
        -- destruct (PrimFloat.leb _ _); simpl; [by rewrite lookup_insert_eq|by rewrite Hk].
        -- simpl. by rewrite lookup_insert_eq.
    + assert (MapData (Map_set results k' d) !! k = MapData results !! k) as Hset
        by (simpl; by rewrite lookup_insert_ne).
      split.
      * intros H. left. destruct (MapData results !! k') as [stored|];
          [destruct (PrimFloat.leb _ _)|]; by rewrite ?Hset in H.
      * intros [H|(d' & [=])]; [|done].
        destruct (MapData results !! k') as [stored|];
          [destruct (PrimFloat.leb _ _)|]; by rewrite ?Hset.
  - rewrite merge_no_result. split; [by left|]. by intros [?|(d' & [=])].
  - rewrite merge_Throw. split; [by left|]. by intros [?|(d' & [=])].
Qed.

Lemma fold_merge_is_Some
    (ds : list (completion (string * option (ClusterDetectionResult Value)))) results k :
  is_Some (MapData (fold_left merge ds results) !! k) ↔
  is_Some (MapData results !! k) ∨ ∃ d, Normal (k, Some d) ∈ ds.
Proof.
  revert results. induction ds as [|a ds IH]; intros results; simpl.
  - split; [by left|]. intros [?|(d & Hd)]; [done|]. by apply elem_of_nil in Hd.
  - rewrite IH, merge_is_Some. split.
    + intros [[?|(d & ->)]|(d & Hd)]; [by left| |].
      * right. exists d. apply elem_of_cons. by left.
      * right. exists d. apply elem_of_cons. by right.
    + intros [?|(d & Hd)]; [by left; left|].
      apply elem_of_cons in Hd as [<-|Hd]; [left; right; eauto|right; eauto].
Qed.

(** ** The pass under an arbitrary completion order *)

Lemma outcome_of_launch (cluster : Cluster)
    (DetectorClass : ClusterDetectionConstructor Cluster Value) :
  outcome_of (launch cluster DetectorClass) = detection cluster DetectorClass.
Proof. unfold launch, detection. by destruct (DetectorClass cluster). Qed.

Lemma launch_outcomes (this : DetectorRegistry Cluster Value) cluster :
  outcome_of <$> (launch cluster <$> registry this) = detections this cluster.
Proof.
  unfold detections. rewrite <- list_fmap_compose.
  apply list_fmap_ext. intros _ D _. apply outcome_of_launch.
Qed.

(** The loop runs over a prefix of settled promises and stops at the first
    pending one, or at the end. *)
Lemma resume_prefix (rest : list (promise (string * option (ClusterDetectionResult Value))))
    n results :
  ∃ m, resume rest n results
       = (n + m, Normal (fold_left merge (outcome_of <$> take m rest) results))
     ∧ m ≤ length rest
     ∧ ∀ c, rest !! m ≠ Some (Settled c).
Proof.
  revert n results. induction rest as [|[c|c] rest IH]; intros n results.
  - exists 0. simpl. rewrite Nat.add_0_r. split_and!; [done|lia|done].
  - exists 0. simpl. rewrite Nat.add_0_r. split_and!; [done|lia|done].
  - simpl. rewrite loop_body_total.
    destruct (IH (S n) (merge results c)) as (m & Hm & Hle & Hpending).
    exists (S m). rewrite Hm. split_and!; [f_equal; lia|simpl; lia|done].
Qed.

Lemma resume_inv ds (ps : list (promise (string * option (ClusterDetectionResult Value)))) n :
  outcome_of <$> ps = ds → n ≤ length ds →
  let nr := resume (drop n ps) n (fold_left merge (take n ds) Map_new) in
  pass_inv ds (mkPass ps nr.1 nr.2).
Proof.
  intros Hps Hn.
  destruct (resume_prefix (drop n ps) n (fold_left merge (take n ds) Map_new))
    as (m & -> & Hm & Hpending).
  rewrite length_drop in Hm.
  assert (length ps = length ds) as Hlen by (by rewrite <- Hps, length_fmap).
  unfold pass_inv; simpl. split_and!; [done|lia| |].
  - rewrite <- fold_left_app. f_equal. f_equal.
    rewrite fmap_take, fmap_drop, Hps. apply take_take_drop.
  - intros c. specialize (Hpending c). by rewrite lookup_drop in Hpending.
Qed.

Lemma start_inv (this : DetectorRegistry Cluster Value) cluster :
  pass_inv (detections this cluster) (start this cluster).
Proof.
  unfold start.
  pose proof (resume_inv (detections this cluster) (launch cluster <$> registry this) 0
                (launch_outcomes this cluster) (Nat.le_0_l _)) as H.
  by rewrite drop_0 in H.
Qed.

Lemma on_settle_inv ds (st : pass Value) i :
  pass_inv ds st → pass_inv ds (on_settle st i).
Proof.
  intros (Hps & Hn & Hrun & _). unfold on_settle. rewrite Hrun.
  apply resume_inv; [by rewrite settle_outcomes|done].
Qed.

Lemma run_inv ds order (st : pass Value) :
  pass_inv ds st → pass_inv ds (fold_left on_settle order st).
Proof.
  revert st. induction order as [|i order IH]; intros st Hst; simpl; [done|].
  by apply IH, on_settle_inv.
Qed.

Lemma promises_on_settle (st : pass Value) i :
  promises (on_settle st i) = settle i (promises st).
Proof. unfold on_settle. by destruct (running st). Qed.

Lemma run_keeps_settled order (st : pass Value) j c :
  promises st !! j = Some (Settled c) →
  promises (fold_left on_settle order st) !! j = Some (Settled c).
Proof.
  revert st. induction order as [|i order IH]; intros st Hj; simpl; [done|].
  apply IH. rewrite promises_on_settle. by apply settle_keeps_settled.
Qed.

Lemma length_promises_run order (st : pass Value) :
  length (promises (fold_left on_settle order st)) = length (promises st).
Proof.
  revert st. induction order as [|i order IH]; intros st; simpl; [done|].
  by rewrite IH, promises_on_settle, length_settle.
Qed.

Lemma run_settles order (st : pass Value) i :
  i ∈ order → i < length (promises st) →
  ∃ c, promises (fold_left on_settle order st) !! i = Some (Settled c).
Proof.
  revert st. induction order as [|j order IH]; intros st Hi Hlen; simpl.
  - by apply elem_of_nil in Hi.
  - apply elem_of_cons in Hi as [<-|Hi].
    + destruct (settle_settles i (promises st) Hlen) as [c Hc].
      exists c. apply run_keeps_settled. by rewrite promises_on_settle.
    + apply IH; [done|]. by rewrite promises_on_settle, length_settle.
Qed.

(** Once every probe has completed, in whatever order, the loop has awaited
    every promise, [results] is the fold in array order, and the call has
    returned what [detectForCluster] returns. *)
Lemma run_pass_complete order (this : DetectorRegistry Cluster Value) cluster :
  settles_all order this →
  running (run_pass order this cluster) = Normal (best_results this cluster)
  ∧ detectForCluster_scheduled order this cluster
    = Some (detectForCluster this cluster).
Proof.
  intros Hall.
  pose proof (run_inv _ order _ (start_inv this cluster)) as (Hps & Hn & Hrun & Hpending).
  fold (run_pass order this cluster) in *.
  assert (length (promises (run_pass order this cluster)) = length (registry this)) as Hlen.
  { unfold run_pass. rewrite length_promises_run. unfold start. simpl.
    by rewrite length_fmap. }
  assert (length (detections this cluster) = length (registry this)) as Hds
    by (unfold detections; by rewrite length_fmap).
  assert (position (run_pass order this cluster) = length (registry this)) as Hpos.
  { apply Nat.le_antisymm; [lia|]. apply Nat.nlt_ge. intros Hlt.
    destruct (run_settles order (start this cluster) _ (Hall _ Hlt)) as [c Hc].
    - unfold start. simpl. by rewrite length_fmap.
    - by apply (Hpending c). }
  rewrite Hpos, <- Hds, firstn_all in Hrun. split; [done|].
  unfold detectForCluster_scheduled, returned. rewrite Hrun, Hpos, Hlen.
  rewrite decide_True by done. by rewrite detectForCluster_best_results.
Qed.

(** ** Which entry wins depends on keys and accuracies only *)

Lemma Map_set_same_accuracies results1 results2 k (d1 d2 : ClusterDetectionResult Value) :
  same_accuracies results1 results2 → accuracy d1 = accuracy d2 →
  same_accuracies (Map_set results1 k d1) (Map_set results2 k d2).
Proof.
  intros Hsame Hacc k'. simpl. destruct (decide (k = k')) as [->|Hne].
  - by rewrite !lookup_insert_eq; simpl; rewrite Hacc.
  - rewrite !lookup_insert_ne by done. apply Hsame.
Qed.

Lemma merge_same_accuracies results1 results2
    (a b : completion (string * option (ClusterDetectionResult Value))) :
  same_accuracies results1 results2 → same_outcome a b →
  same_accuracies (merge results1 a) (merge results2 b).
Proof.
  intros Hsame Hab.
  destruct a as [[ka [da|]]|ea], b as [[kb [db|]]|eb]; simpl in Hab;
    try done; try (by destruct Hab as [_ [=]]).
  destruct Hab as [-> [= Hacc]]. rewrite !merge_result.
  pose proof (Hsame kb) as Hk.
  destruct (MapData results1 !! kb) as [s1|], (MapData results2 !! kb) as [s2|];
    simpl in Hk; try done.
  - injection Hk as ->. rewrite Hacc.
    destruct (PrimFloat.leb _ _); [by apply Map_set_same_accuracies|done].
  - by apply Map_set_same_accuracies.
Qed.

Lemma fold_merge_same_accuracies
    (ds1 ds2 : list (completion (string * option (ClusterDetectionResult Value))))
    results1 results2 :
  Forall2 same_outcome ds1 ds2 → same_accuracies results1 results2 →
  same_accuracies (fold_left merge ds1 results1) (fold_left merge ds2 results2).
Proof.
  intros Hds. revert results1 results2.
  induction Hds as [|a b ds1 ds2 Hab _ IH]; intros results1 results2 Hsame; simpl;
    [done|].
  by apply IH, merge_same_accuracies.
Qed.

(** ** Comparisons of accuracies *)

Lemma SFcompare_Lt_Gt x y : SFcompare x y = Some Lt → SFcompare y x = Some Gt.
Proof.
  destruct x as [sx|sx| |sx mx ex], y as [sy|sy| |sy my ey]; simpl;
    try congruence;
    try (destruct sx; simpl; congruence); try (destruct sy; simpl; congruence);
    try (destruct sx, sy; simpl; congruence).
  change (PosDef.Pos.compare_cont Eq mx my) with (Pos.compare mx my).
  change (PosDef.Pos.compare_cont Eq my mx) with (Pos.compare my mx).
  rewrite (Z.compare_antisym ex ey), (Pos.compare_antisym mx my).
  destruct sx, sy; simpl; try congruence;
    destruct (ex ?= ey)%Z; simpl; try congruence;
    destruct (mx ?= my)%positive; simpl; congruence.
Qed.

(** [a < b] gives [a <= b] and not [b <= a]. *)
Lemma float_ltb_leb (a b : float) :
  PrimFloat.ltb a b = true → PrimFloat.leb a b = true ∧ PrimFloat.leb b a = false.
Proof.
  rewrite FloatAxioms.ltb_spec, !FloatAxioms.leb_spec. unfold SFltb, SFleb.
  destruct (SFcompare (Prim2SF a) (Prim2SF b)) as [[]|] eqn:Hc; try discriminate.
  intros _. split; [done|]. by rewrite (SFcompare_Lt_Gt _ _ Hc).
Qed.

(** [a == b] gives [a <= b]. *)
Lemma float_eqb_leb (a b : float) :
  PrimFloat.eqb a b = true → PrimFloat.leb a b = true.
Proof.
  rewrite FloatAxioms.eqb_spec, FloatAxioms.leb_spec. unfold SFeqb, SFleb.
  by destruct (SFcompare (Prim2SF a) (Prim2SF b)) as [[]|].
Qed.

(** ** The entries of [results] after the loop *)

(** X1: a key is in [results] when the loop is over iff some registered
    constructor built a detector with that key whose [detect()] resolved to
    a result. *)
Lemma best_results_key_iff (this : DetectorRegistry Cluster Value) cluster k :
  is_Some (MapData (best_results this cluster) !! k) ↔
  ∃ DetectorClass d,
    DetectorClass ∈ registry this ∧ detection cluster DetectorClass = Normal (k, Some d).
Proof.
  unfold best_results. rewrite fold_merge_is_Some. simpl. rewrite lookup_empty.
  unfold detections. split.
  - intros [[? [=]]|(d & Hd)]. apply list_elem_of_fmap in Hd as (D & HD & Hin). eauto.
  - intros (D & d & Hin & HD). right. exists d. apply list_elem_of_fmap. eauto.
Qed.

(** X2: of two detectors with the same key that both resolve to a result, the
    one with the strictly higher accuracy is the one in [results], in either
    registration order. *)
Lemma best_results_highest_accuracy
    (A B : ClusterDetectionConstructor Cluster Value) cluster k rA rB :
  detection cluster A = Normal (k, Some rA) →
  detection cluster B = Normal (k, Some rB) →
  PrimFloat.ltb (accuracy rA) (accuracy rB) = true →
  MapData (best_results {| registry := [A; B] |} cluster) !! k = Some rB
  ∧ MapData (best_results {| registry := [B; A] |} cluster) !! k = Some rB.
Proof.
  intros HA HB [Hle Hnle]%float_ltb_leb.
  unfold best_results, detections. simpl. rewrite HA, HB, !merge_result. simpl.
  rewrite lookup_empty. simpl. rewrite !lookup_insert_eq, Hle, Hnle. simpl.
  by rewrite insert_insert_eq, !lookup_insert_eq.
Qed.

(** X3: of two detectors with the same key and equal accuracies, the one
    registered later is the one in [results]. *)
Lemma best_results_tie_later_wins
    (A B : ClusterDetectionConstructor Cluster Value) cluster k rA rB :
  detection cluster A = Normal (k, Some rA) →
  detection cluster B = Normal (k, Some rB) →
  PrimFloat.eqb (accuracy rA) (accuracy rB) = true →
  MapData (best_results {| registry := [A; B] |} cluster) !! k = Some rB.
Proof.
  intros HA HB Hle%float_eqb_leb.
  unfold best_results, detections. simpl. rewrite HA, HB, !merge_result. simpl.
  rewrite lookup_empty. simpl. rewrite !lookup_insert_eq, Hle. simpl.
  by rewrite lookup_insert_eq.
Qed.

Lemma fold_merge_skip_Throw
    (before after : list (ClusterDetectionConstructor Cluster Value)) D cluster e :
  detection cluster D = Throw e →
  best_results {| registry := before ++ D :: after |} cluster
  = best_results {| registry := before ++ after |} cluster.
Proof.
  intros HD. unfold best_results, detections. simpl.
  rewrite !fmap_app, !fold_left_app. simpl. by rewrite HD, merge_Throw.
Qed.

(** X4: a detector whose [detect()] rejects leaves [results] as the loop
    would have left it without that detector, wherever it is registered. *)
Lemma best_results_rejection_skipped
    (before after : list (ClusterDetectionConstructor Cluster Value))
    DetectorClass cluster :
  detect_fails cluster DetectorClass →
  best_results {| registry := before ++ DetectorClass :: after |} cluster
  = best_results {| registry := before ++ after |} cluster.
Proof.
  intros (detector & e & Hnew & Hdetect).
  apply (fold_merge_skip_Throw _ _ _ _ e).
  unfold detection. rewrite Hnew. simpl. by rewrite Hdetect.
Qed.

Lemma detectForCluster_empty (this : DetectorRegistry Cluster Value) cluster :
  detectForCluster this cluster = Normal ∅.
Proof.
  rewrite detectForCluster_best_results. f_equal.
  apply projection_no_own_property, best_results_Object_entries.
Qed.

(** ** The claims on [detectForCluster] and [add] *)

(** C2: for every registry and cluster, [Object.entries(results)] is empty
    (a [Map] has no own enumerable property, whatever its entries), so the
    object [detectForCluster] resolves to is the empty one. *)
Theorem detectForCluster_returns_empty_object
    (this : DetectorRegistry Cluster Value) (cluster : Cluster) :
  Object_entries (best_results this cluster) = []
  ∧ detectForCluster this cluster = Normal ∅.
Proof.
  split; [apply best_results_Object_entries|apply detectForCluster_empty].
Qed.

(** C6: [detectForCluster] never rejects: it resolves for every registry and
    cluster, and when the [detect()] of every registered detector fails it
    resolves to the empty object, [results] being empty too. *)
Theorem detectForCluster_never_rejects
    (this : DetectorRegistry Cluster Value) (cluster : Cluster) :
  (∃ metadata, detectForCluster this cluster = Normal metadata)
  ∧ ((∀ DetectorClass, DetectorClass ∈ registry this → detect_fails cluster DetectorClass) →
     detectForCluster this cluster = Normal ∅
     ∧ MapData (best_results this cluster) = ∅).
Proof.
  split; [rewrite detectForCluster_best_results; eauto|].
  intros Hfail. split.
  - apply detectForCluster_empty.
  - apply map_eq. intros k. rewrite lookup_empty.
    apply eq_None_not_Some. unfold best_results. rewrite fold_merge_is_Some.
    simpl. rewrite lookup_empty. intros [[? [=]]|(d & Hd)].
    apply list_elem_of_fmap in Hd as (D & HD & Hin).
    destruct (Hfail D Hin) as (detector & e & Hnew & Hdetect).
    unfold detection in HD. rewrite Hnew in HD. simpl in HD. by rewrite Hdetect in HD.
Qed.

(** C7: on a registry with no registered constructor, no detection is
    launched, [results] stays the fresh [Map], and [detectForCluster]
    resolves to the empty object, for any cluster. *)
Theorem detectForCluster_empty_registry
    (this : DetectorRegistry Cluster Value) (cluster : Cluster) :
  registry this = [] →
  detections this cluster = []
  ∧ best_results this cluster = Map_new
  ∧ detectForCluster this cluster = Normal ∅.
Proof.
  intros Hempty. unfold detectForCluster, best_results, detections.
  rewrite Hempty. by split_and!.
Qed.

(** C8: two runs whose detections agree, in registration order, on success
    or failure, key and accuracy return equal objects, in whatever order the
    probes of each run complete: each run returns what the fold in
    registration order gives, and the two [results] hold the same keys with
    the same accuracies. *)
Theorem detectForCluster_completion_order_irrelevant
    (this1 this2 : DetectorRegistry Cluster Value) (cluster1 cluster2 : Cluster)
    (order1 order2 : list nat) :
  settles_all order1 this1 →
  settles_all order2 this2 →
  Forall2 same_outcome (detections this1 cluster1) (detections this2 cluster2) →
  detectForCluster_scheduled order1 this1 cluster1
    = detectForCluster_scheduled order2 this2 cluster2
  ∧ detectForCluster_scheduled order1 this1 cluster1
    = Some (detectForCluster this1 cluster1)
  ∧ (∃ metadata, detectForCluster_scheduled order1 this1 cluster1 = Some (Normal metadata))
  ∧ running (run_pass order1 this1 cluster1) = Normal (best_results this1 cluster1)
  ∧ running (run_pass order2 this2 cluster2) = Normal (best_results this2 cluster2)
  ∧ same_accuracies (best_results this1 cluster1) (best_results this2 cluster2).
Proof.
  intros Hall1 Hall2 Hsame.
  destruct (run_pass_complete order1 this1 cluster1 Hall1) as [Hrun1 Hret1].
  destruct (run_pass_complete order2 this2 cluster2 Hall2) as [Hrun2 Hret2].
  pose proof (detectForCluster_empty this1 cluster1) as Hempty1.
  pose proof (detectForCluster_empty this2 cluster2) as Hempty2.
  split_and!; [by rewrite Hret1, Hret2, Hempty1, Hempty2|done| |done|done|].
  - rewrite Hret1, Hempty1. eauto.
  - by apply fold_merge_same_accuracies.
Qed.

(** C10: a constructor that throws has rejected its promise when the loop
    starts; the iteration that awaits it leaves [results] as it is, the loop
    goes on, and the pass ends as it would without that constructor, in
    [results] and in what it returns, under any completion order. *)
Theorem constructor_failure_absorbed
    (before after : list (ClusterDetectionConstructor Cluster Value))
    (DetectorClass : ClusterDetectionConstructor Cluster Value)
    (cluster : Cluster) (e : exn) :
  DetectorClass cluster = Throw e →
  launch cluster DetectorClass = Settled (Throw e)
  ∧ (∀ results, loop_body results (detection cluster DetectorClass) = Normal results)
  ∧ best_results {| registry := before ++ DetectorClass :: after |} cluster
    = best_results {| registry := before ++ after |} cluster
  ∧ detectForCluster {| registry := before ++ DetectorClass :: after |} cluster
    = Normal (projection (best_results {| registry := before ++ after |} cluster))
  ∧ ∀ order,
      settles_all order {| registry := before ++ DetectorClass :: after |} →
      running (run_pass order {| registry := before ++ DetectorClass :: after |} cluster)
      = Normal (best_results {| registry := before ++ after |} cluster).
Proof.
  intros Hnew.
  assert (detection cluster DetectorClass = Throw e) as HD
    by (unfold detection; by rewrite Hnew).
  pose proof (fold_merge_skip_Throw before after _ cluster e HD) as Hskip.
  split_and!.
  - unfold launch. by rewrite Hnew.
  - intros results. by rewrite HD.
  - done.
  - by rewrite detectForCluster_best_results, Hskip.
  - intros order Hall. rewrite <- Hskip. by apply run_pass_complete.
Qed.

(** ** More on what the loop leaves in [results] *)

(** The entry of a key after an iteration, from the entry before it. *)
Lemma merge_lookup results
    (awaited : completion (string * option (ClusterDetectionResult Value))) k :
  MapData (merge results awaited) !! k =
  match awaited with
  | Normal (k', Some d) =>
      if decide (k' = k) then
        match MapData results !! k with
        | None => Some d
        | Some stored =>
            if PrimFloat.leb (accuracy stored) (accuracy d) then Some d else Some stored
        end
      else MapData results !! k
  | _ => MapData results !! k
  end.
Proof.
  destruct awaited as [[k' [d|]]|e]; [|done..].
  rewrite merge_result. destruct (decide (k' = k)) as [->|Hne].
  - destruct (MapData results !! k) as [stored|] eqn:Hk.
    + destruct (PrimFloat.leb _ _); simpl; [by rewrite lookup_insert_eq|done].
    + simpl. by rewrite lookup_insert_eq.
  - destruct (MapData results !! k') as [stored|];
      [destruct (PrimFloat.leb _ _)|]; simpl; by rewrite ?lookup_insert_ne.
Qed.

Lemma fold_merge_snoc
    (ds : list (completion (string * option (ClusterDetectionResult Value)))) a results :
  fold_left merge (ds ++ [a]) results = merge (fold_left merge ds results) a.
Proof. by rewrite fold_left_app. Qed.

(** The entry of a key is a contribution for that key, and no contribution
    for it further down the list was let down by the comparison. *)
Lemma fold_merge_lookup_origin
    (ds : list (completion (string * option (ClusterDetectionResult Value)))) k r :
  MapData (fold_left merge ds Map_new) !! k = Some r →
  ∃ i, ds !! i = Some (Normal (k, Some r))
     ∧ ∀ j r', i < j → ds !! j = Some (Normal (k, Some r')) →
               PrimFloat.leb (accuracy r) (accuracy r') = false.
Proof.
  induction ds as [|a ds IH] using rev_ind; [done|].
  rewrite fold_merge_snoc, merge_lookup. intros Hk.
  assert (MapData (fold_left merge ds Map_new) !! k = Some r →
          (∀ r', a = Normal (k, Some r') →
                 PrimFloat.leb (accuracy r) (accuracy r') = false) →
          ∃ i, (ds ++ [a]) !! i = Some (Normal (k, Some r))
             ∧ ∀ j r', i < j → (ds ++ [a]) !! j = Some (Normal (k, Some r')) →
                       PrimFloat.leb (accuracy r) (accuracy r') = false) as Hkeep.
  { intros Hold Ha. destruct (IH Hold) as (i & Hi & Hlater).
    exists i. split; [by apply lookup_app_l_Some|].
    intros j r' Hij Hj. apply lookup_app_Some in Hj as [Hj|[Hlen Hj]]; [by eauto|].
    apply list_lookup_singleton_Some in Hj as [_ ->]. by apply Ha. }
  assert (a = Normal (k, Some r) →
          ∃ i, (ds ++ [a]) !! i = Some (Normal (k, Some r))
             ∧ ∀ j r', i < j → (ds ++ [a]) !! j = Some (Normal (k, Some r')) →
                       PrimFloat.leb (accuracy r) (accuracy r') = false) as Hnew.
  { intros ->. exists (length ds). split; [by apply list_lookup_middle|].
    intros j r' Hij Hj. apply lookup_lt_Some in Hj.
    rewrite length_app in Hj. simpl in Hj. lia. }
  destruct a as [[k' [d|]]|e]; [|by apply Hkeep..].
  destruct (decide (k' = k)) as [->|Hne]; [|apply Hkeep; [done|congruence]].
  destruct (MapData (fold_left merge ds Map_new) !! k) as [stored|] eqn:Hold.
  - destruct (PrimFloat.leb (accuracy stored) (accuracy d)) eqn:Hle.
    + injection Hk as ->. by apply Hnew.
    + injection Hk as ->. apply Hkeep; [done|]. by intros r' [= <-].
  - injection Hk as ->. by apply Hnew.
Qed.

(** The entry of a key depends on the entry the loop started from and on
    the contributions for that key, on nothing else. *)
Lemma fold_merge_lookup_ext
    (ds : list (completion (string * option (ClusterDetectionResult Value))))
    results1 results2 k :
  MapData results1 !! k = MapData results2 !! k →
  MapData (fold_left merge ds results1) !! k = MapData (fold_left merge ds results2) !! k.
Proof.
  revert results1 results2. induction ds as [|a ds IH]; intros results1 results2 Hk;
    simpl; [done|].
  apply IH. rewrite !merge_lookup. destruct a as [[k' [d|]]|e]; [|done..].
  case_decide; [by rewrite Hk|done].
Qed.

(** ** Accuracies that are not numbers *)

Lemma SFcompare_refl x : x ≠ S754_nan → SFcompare x x = Some Eq.
Proof.
  destruct x as [s|s| |s m e]; simpl; intros Hx; try done; try by destruct s.
  rewrite Z.compare_refl.
  change (PosDef.Pos.compare_cont Eq m m) with (Pos.compare m m).
  rewrite Pos.compare_refl. by destruct s.
Qed.

Lemma SFcompare_nan_r x : SFcompare x S754_nan = None.
Proof. by destruct x. Qed.

(** [a != a] holds of [NaN] only, and [NaN <= b] and [b <= NaN] are false. *)
Lemma float_nan_leb (a b : float) :
  PrimFloat.eqb a a = false →
  PrimFloat.leb a b = false ∧ PrimFloat.leb b a = false.
Proof.
  rewrite FloatAxioms.eqb_spec, !FloatAxioms.leb_spec. unfold SFeqb, SFleb.
  intros Hnan. assert (Prim2SF a = S754_nan) as ->.
  { destruct (Prim2SF a) as [s|s| |s m e] eqn:Ha; [| |done|];
      by rewrite SFcompare_refl in Hnan. }
  by rewrite SFcompare_nan_r.
Qed.

Lemma fold_merge_nan_sticks
    (ds : list (completion (string * option (ClusterDetectionResult Value))))
    results k r :
  MapData results !! k = Some r →
  PrimFloat.eqb (accuracy r) (accuracy r) = false →
  MapData (fold_left merge ds results) !! k = Some r.
Proof.
  intros Hk Hnan. induction ds as [|a ds IH] using rev_ind; [done|].
  rewrite fold_merge_snoc, merge_lookup, IH.
  destruct a as [[k' [d|]]|e]; [|done..]. case_decide; [|done].
  by rewrite (proj1 (float_nan_leb _ (accuracy d) Hnan)).
Qed.

(** ** A pending probe keeps the call suspended *)

Lemma resume_stops_at_pending
    (rest : list (promise (string * option (ClusterDetectionResult Value))))
    n results m c :
  rest !! m = Some (Pending c) → (resume rest n results).1 ≤ n + m.
Proof.
  revert n results m. induction rest as [|[c'|c'] rest IH]; intros n results m Hm;
    simpl; [done|lia|].
  destruct m as [|m]; [done|]. rewrite loop_body_total.
  specialize (IH (S n) (merge results c') m Hm). lia.
Qed.

Lemma resume_running
    (rest : list (promise (string * option (ClusterDetectionResult Value)))) n results :
  ∃ results', (resume rest n results).2 = Normal results'.
Proof. destruct (resume_prefix rest n results) as (m & -> & _). eauto. Qed.

Lemma settle_keeps_pending {A} i j (ps : list (promise A)) c :
  i ≠ j → ps !! j = Some (Pending c) → settle i ps !! j = Some (Pending c).
Proof.
  intros Hne Hj. unfold settle. destruct (ps !! i) as [[c'|c']|]; [|done..].
  by rewrite list_lookup_insert_ne.
Qed.

Lemma on_settle_keeps_waiting (st : pass Value) i j c :
  i ≠ j →
  promises st !! j = Some (Pending c) → position st ≤ j →
  (∃ results, running st = Normal results) →
  promises (on_settle st i) !! j = Some (Pending c)
  ∧ position (on_settle st i) ≤ j
  ∧ ∃ results, running (on_settle st i) = Normal results.
Proof.
  intros Hne Hj Hpos [results Hrun]. unfold on_settle. rewrite Hrun. simpl.
  pose proof (settle_keeps_pending i j _ c Hne Hj) as Hj'.
  split_and!; [done| |apply resume_running].
  pose proof (resume_stops_at_pending (drop (position st) (settle i (promises st)))
                (position st) results (j - position st) c) as Hstop.
  rewrite lookup_drop in Hstop. replace (position st + (j - position st)) with j in Hstop by lia.
  by apply Hstop.
Qed.

Lemma run_keeps_waiting order (st : pass Value) j c :
  j ∉ order →
  promises st !! j = Some (Pending c) → position st ≤ j →
  (∃ results, running st = Normal results) →
  returned (fold_left on_settle order st) = None.
Proof.
  revert st. induction order as [|i order IH]; intros st Hnotin Hj Hpos Hrun; simpl.
  - destruct Hrun as [results Hrun]. unfold returned. rewrite Hrun.
    apply lookup_lt_Some in Hj. rewrite decide_False by lia. done.
  - apply not_elem_of_cons in Hnotin as [Hne Hnotin].
    destruct (on_settle_keeps_waiting st i j c) as (Hj' & Hpos' & Hrun'); [done..|].
    by apply IH.
Qed.

(** ** The extras on the loop and on the suspended call *)

(** X5: the entry [results] holds for a key when the loop is over is the
    result of a registered detector with that key, and every detector
    registered after it that resolved to a result for the key lost the
    comparison [stored.accuracy <= data.accuracy]. *)
Theorem best_results_entry_origin
    (this : DetectorRegistry Cluster Value) (cluster : Cluster) k r :
  MapData (best_results this cluster) !! k = Some r →
  ∃ i (DetectorClass : ClusterDetectionConstructor Cluster Value),
    registry this !! i = Some DetectorClass
    ∧ detection cluster DetectorClass = Normal (k, Some r)
    ∧ ∀ j (DetectorClass' : ClusterDetectionConstructor Cluster Value) r',
        i < j → registry this !! j = Some DetectorClass' →
        detection cluster DetectorClass' = Normal (k, Some r') →
        PrimFloat.leb (accuracy r) (accuracy r') = false.
Proof.
  intros Hk. apply fold_merge_lookup_origin in Hk as (i & Hi & Hlater).
  unfold detections in *. rewrite list_lookup_fmap in Hi.
  destruct (registry this !! i) as [D|] eqn:HD; [|done]. injection Hi as Hi.
  exists i, D. split_and!; [done..|].
  intros j D' r' Hij HD' Hr'. apply (Hlater j r' Hij).
  by rewrite list_lookup_fmap, HD', <- Hr'.
Qed.

(** X6: a detector that does not resolve to a result for a key (it claims
    another key, resolves to nothing, or fails) has no effect on the entry
    of that key, wherever it is registered. *)
Theorem best_results_other_detector_irrelevant
    (before after : list (ClusterDetectionConstructor Cluster Value))
    (DetectorClass : ClusterDetectionConstructor Cluster Value) (cluster : Cluster) k :
  (∀ d, detection cluster DetectorClass ≠ Normal (k, Some d)) →
  MapData (best_results {| registry := before ++ DetectorClass :: after |} cluster) !! k
  = MapData (best_results {| registry := before ++ after |} cluster) !! k.
Proof.
  intros HD. unfold best_results, detections. simpl.
  rewrite !fmap_app, !fold_left_app. simpl. apply fold_merge_lookup_ext.
  rewrite merge_lookup. destruct (detection cluster DetectorClass) as [[k' [d|]]|e];
    [|done..].
  case_decide as Hk; [|done]. subst k'. by destruct (HD d).
Qed.

(** X7: an entry whose accuracy is [NaN] is never replaced: whatever is
    registered after the detectors that left it in [results], it is the
    entry of its key when the loop is over. *)
Theorem best_results_nan_entry_sticks
    (before after : list (ClusterDetectionConstructor Cluster Value))
    (cluster : Cluster) k r :
  MapData (best_results {| registry := before |} cluster) !! k = Some r →
  PrimFloat.eqb (accuracy r) (accuracy r) = false →
  MapData (best_results {| registry := before ++ after |} cluster) !! k = Some r.
Proof.
  intros Hk Hnan. unfold best_results, detections in *. simpl in *.
  rewrite fmap_app, fold_left_app. by apply fold_merge_nan_sticks.
Qed.

(** X8: a result whose accuracy is [NaN] replaces no entry: registered after
    detectors that left an entry for its key, its detector changes nothing
    in [results]. *)
Theorem best_results_nan_never_replaces
    (before : list (ClusterDetectionConstructor Cluster Value))
    (DetectorClass : ClusterDetectionConstructor Cluster Value) (cluster : Cluster) k d :
  detection cluster DetectorClass = Normal (k, Some d) →
  PrimFloat.eqb (accuracy d) (accuracy d) = false →
  is_Some (MapData (best_results {| registry := before |} cluster) !! k) →
  best_results {| registry := before ++ [DetectorClass] |} cluster
  = best_results {| registry := before |} cluster.
Proof.
  intros HD Hnan [stored Hk]. unfold best_results, detections in *. simpl in *.
  rewrite fmap_app, fold_left_app. simpl. rewrite HD, merge_result, Hk.
  by rewrite (proj2 (float_nan_leb _ (accuracy stored) Hnan)).
Qed.

(** X9: as long as the probe of one registered detector has not completed,
    the call has not returned, whatever else has completed. *)
Theorem detectForCluster_waits_for_every_probe
    (order : list nat) (this : DetectorRegistry Cluster Value) (cluster : Cluster)
    (i : nat) (DetectorClass : ClusterDetectionConstructor Cluster Value)
    (detector : BaseClusterDetector Value) :
  registry this !! i = Some DetectorClass →
  DetectorClass cluster = Normal detector →
  i ∉ order →
  detectForCluster_scheduled order this cluster = None.
Proof.
  intros Hi Hnew Hnotin. unfold detectForCluster_scheduled, run_pass.
  assert ((launch cluster <$> registry this) !! i
          = Some (Pending (data ← detect detector; mret (key detector, data)))) as Hp.
  { rewrite list_lookup_fmap, Hi. simpl. unfold launch. by rewrite Hnew. }
  eapply run_keeps_waiting; [done|exact Hp| |].
  - change (position (start this cluster))
      with (resume (launch cluster <$> registry this) 0 Map_new).1.
    by apply (resume_stops_at_pending _ 0 Map_new i _ Hp).
  - change (running (start this cluster))
      with (resume (launch cluster <$> registry this) 0 Map_new).2.
    apply resume_running.
Qed.

(** ** Which contribution is the entry of its key *)

Lemma fold_merge_keeps
    (ds : list (completion (string * option (ClusterDetectionResult Value))))
    results k r :
  (∀ r', Normal (k, Some r') ∈ ds → PrimFloat.leb (accuracy r) (accuracy r') = false) →
  MapData results !! k = Some r →
  MapData (fold_left merge ds results) !! k = Some r.
Proof.
  intros Hds Hk. induction ds as [|a ds IH] using rev_ind; [done|].
  rewrite fold_merge_snoc, merge_lookup, IH.
  - destruct a as [[k' [d|]]|e]; [|done..]. case_decide as Hkk; [|done]. subst k'.
    rewrite Hds; [done|]. apply elem_of_app. right. by apply list_elem_of_singleton.
  - intros r' Hr'. apply Hds, elem_of_app. by left.
Qed.

Lemma detections_lookup (this : DetectorRegistry Cluster Value) cluster j a :
  detections this cluster !! j = Some a →
  ∃ D : ClusterDetectionConstructor Cluster Value,
    registry this !! j = Some D ∧ detection cluster D = a.
Proof.
  unfold detections. rewrite list_lookup_fmap. intros Hj.
  destruct (registry this !! j) as [D|]; [|done]. injection Hj as <-. eauto.
Qed.

Lemma best_results_last_maximum_aux
    (this : DetectorRegistry Cluster Value) (cluster : Cluster)
    (i : nat) (B : ClusterDetectionConstructor Cluster Value) k rB :
  registry this !! i = Some B →
  detection cluster B = Normal (k, Some rB) →
  (∀ j (D : ClusterDetectionConstructor Cluster Value) r',
     j < i → registry this !! j = Some D →
     detection cluster D = Normal (k, Some r') →
     PrimFloat.leb (accuracy r') (accuracy rB) = true) →
  (∀ j (D : ClusterDetectionConstructor Cluster Value) r',
     i < j → registry this !! j = Some D →
     detection cluster D = Normal (k, Some r') →
     PrimFloat.leb (accuracy rB) (accuracy r') = false) →
  MapData (best_results this cluster) !! k = Some rB.
Proof.
  intros Hi HB Hbefore Hafter. unfold best_results.
  assert (detections this cluster !! i = Some (Normal (k, Some rB))) as Hdi.
  { unfold detections. by rewrite list_lookup_fmap, Hi; simpl; rewrite HB. }
  rewrite <- (take_drop_middle _ _ _ Hdi), fold_left_app. simpl.
  apply fold_merge_keeps.
  - intros r' Hr'. apply list_elem_of_lookup in Hr' as [j Hj].
    rewrite lookup_drop in Hj. apply detections_lookup in Hj as (D & HD & Hr').
    apply (Hafter (S i + j) D r'); [lia|done..].
  - rewrite merge_lookup. rewrite decide_True by done.
    destruct (MapData (fold_left merge (take i (detections this cluster)) Map_new) !! k)
      as [stored|] eqn:Hstored; [|done].
    apply fold_merge_lookup_origin in Hstored as (j & Hj & _).
    apply lookup_take_Some in Hj as [Hj Hji].
    apply detections_lookup in Hj as (D & HD & Hs).
    by rewrite (Hbefore j D stored Hji HD Hs).
Qed.

(** X10: a detector whose result for its key is at least as accurate as
    every result for that key registered before it ([<=] holds), and is not
    reached by any registered after it ([<=] fails), is the one whose result
    [results] holds for the key when the loop is over. *)
Theorem best_results_last_maximum
    (this : DetectorRegistry Cluster Value) (cluster : Cluster)
    (i : nat) (B : ClusterDetectionConstructor Cluster Value) k rB :
  registry this !! i = Some B →
  detection cluster B = Normal (k, Some rB) →
  (∀ j (D : ClusterDetectionConstructor Cluster Value) r',
     j < i → registry this !! j = Some D →
     detection cluster D = Normal (k, Some r') →
     PrimFloat.leb (accuracy r') (accuracy rB) = true) →
  (∀ j (D : ClusterDetectionConstructor Cluster Value) r',
     i < j → registry this !! j = Some D →
     detection cluster D = Normal (k, Some r') →
     PrimFloat.leb (accuracy rB) (accuracy r') = false) →
  MapData (best_results this cluster) !! k = Some rB.
Proof. apply best_results_last_maximum_aux. Qed.

(** X11: among any number of detectors, one whose result for its key is
    strictly more accurate than every other result for that key is the one
    whose result [results] holds when the loop is over, wherever it is
    registered. *)
Theorem best_results_strict_maximum
    (this : DetectorRegistry Cluster Value) (cluster : Cluster)
    (i : nat) (B : ClusterDetectionConstructor Cluster Value) k rB :
  registry this !! i = Some B →
  detection cluster B = Normal (k, Some rB) →
  (∀ j (D : ClusterDetectionConstructor Cluster Value) r',
     j ≠ i → registry this !! j = Some D →
     detection cluster D = Normal (k, Some r') →
     PrimFloat.ltb (accuracy r') (accuracy rB) = true) →
  MapData (best_results this cluster) !! k = Some rB.
Proof.
  intros Hi HB Hmax. apply (best_results_last_maximum_aux this cluster i B); [done..| |].
  - intros j D r' Hji HD Hr'. apply float_ltb_leb, (Hmax j D r'); [lia|done..].
  - intros j D r' Hij HD Hr'. apply float_ltb_leb, (Hmax j D r'); [lia|done..].
Qed.

End Properties.

(** ** The scenarios, evaluated *)

(** C1: with one detector registered, for "distribution", that resolves to
    "kind" with accuracy 1, [results] holds the entry when the loop is over,
    and the object returned has no "distribution" key. *)
Theorem succeeded_key_absent_from_output :
  detection () kind_1
    = Normal ("distribution", Some {| value := "kind"; accuracy := 1 |})
  ∧ MapData (best_results {| registry := [kind_1] |} ()) !! "distribution"
    = Some {| value := "kind"; accuracy := 1 |}
  ∧ ∃ metadata,
      detectForCluster {| registry := [kind_1] |} () = Normal metadata
      ∧ metadata !! "distribution" = None.
Proof. split_and!; [done..|]. by exists ∅. Qed.

(** C3: scenario 1, "kind" with accuracy 1 then "k3s" with accuracy 5 for
    "distribution": [results] holds the "k3s" entry in both registration
    orders, and the object returned is empty in both, not
    [{ "distribution": "k3s" }]. *)
Theorem scenario_accuracy_ordering :
  MapData (best_results {| registry := [kind_1; k3s_5] |} ()) !! "distribution"
    = Some {| value := "k3s"; accuracy := 5 |}
  ∧ MapData (best_results {| registry := [k3s_5; kind_1] |} ()) !! "distribution"
    = Some {| value := "k3s"; accuracy := 5 |}
  ∧ detectForCluster {| registry := [kind_1; k3s_5] |} () = Normal ∅
  ∧ detectForCluster {| registry := [k3s_5; kind_1] |} () = Normal ∅
  ∧ (∅ : gmap string string) ≠ {["distribution" := "k3s"]}.
Proof.
  split_and!; [done..|].
  intros H. apply (f_equal (lookup "distribution")) in H. by vm_compute in H.
Qed.

(** C4: scenario 3, "aws" then "gcp" for "cloudProvider", both with
    accuracy 3: [results] holds the "gcp" entry, and the object returned is
    empty, not [{ "cloudProvider": "gcp" }]. *)
Theorem scenario_exact_tie :
  MapData (best_results {| registry := [aws_3; gcp_3] |} ()) !! "cloudProvider"
    = Some {| value := "gcp"; accuracy := 3 |}
  ∧ detectForCluster {| registry := [aws_3; gcp_3] |} () = Normal ∅
  ∧ (∅ : gmap string string) ≠ {["cloudProvider" := "gcp"]}.
Proof.
  split_and!; [done..|].
  intros H. apply (f_equal (lookup "cloudProvider")) in H. by vm_compute in H.
Qed.

(** C5: scenario 2, "aws" with accuracy 3 for "cloudProvider", then a
    detector for the same key whose [detect()] rejects: [results] holds the
    "aws" entry, and the object returned is empty, not
    [{ "cloudProvider": "aws" }]. *)
Theorem scenario_failure_tolerance :
  detection () cloud_down = Throw (Thrown "connection refused")
  ∧ MapData (best_results {| registry := [aws_3; cloud_down] |} ()) !! "cloudProvider"
    = Some {| value := "aws"; accuracy := 3 |}
  ∧ detectForCluster {| registry := [aws_3; cloud_down] |} () = Normal ∅
  ∧ (∅ : gmap string string) ≠ {["cloudProvider" := "aws"]}.
Proof.
  split_and!; [done..|].
  intros H. apply (f_equal (lookup "cloudProvider")) in H. by vm_compute in H.
Qed.

(** ** Instances of the conditional statements *)

Lemma detectForCluster_never_rejects_witness :
  (∀ D, D ∈ [cloud_down; failing "distribution" "timeout"] → detect_fails () D)
  ∧ detectForCluster {| registry := [cloud_down; failing "distribution" "timeout"] |} ()
    = Normal ∅
  ∧ MapData (best_results
               {| registry := [cloud_down; failing "distribution" "timeout"] |} ())
    = ∅.
Proof.
  assert (∀ D, D ∈ [cloud_down; failing "distribution" "timeout"] → detect_fails () D)
    as Hfail.
  { intros D HD. apply elem_of_cons in HD as [->|HD];
      [|apply elem_of_cons in HD as [->|HD]; [|by apply elem_of_nil in HD]];
      eexists _, _; split; reflexivity. }
  split; [exact Hfail|].
  exact (proj2 (detectForCluster_never_rejects
                  {| registry := [cloud_down; failing "distribution" "timeout"] |} ())
               Hfail).
Defined.

Lemma detectForCluster_empty_registry_witness :
  detections (@new_DetectorRegistry unit string) () = []
  ∧ best_results (@new_DetectorRegistry unit string) () = Map_new
  ∧ detectForCluster (@new_DetectorRegistry unit string) () = Normal ∅.
Proof. exact (detectForCluster_empty_registry new_DetectorRegistry () eq_refl). Defined.

Lemma detectForCluster_completion_order_irrelevant_witness :
  detectForCluster_scheduled [1; 0] {| registry := [kind_1; k3s_5] |} ()
  = detectForCluster_scheduled [0; 1]
      {| registry := [succeeding "distribution" "minikube" 1; k3s_5] |} ().
Proof.
  refine (proj1 (detectForCluster_completion_order_irrelevant
            {| registry := [kind_1; k3s_5] |}
            {| registry := [succeeding "distribution" "minikube" 1; k3s_5] |}
            () () [1; 0] [0; 1] _ _ _)).
  - intros [|[|i]] Hi; [repeat constructor..|simpl in Hi; lia].
  - intros [|[|i]] Hi; [repeat constructor..|simpl in Hi; lia].
  - repeat (constructor; [by split|]). constructor.
Defined.

Lemma constructor_failure_absorbed_witness :
  unconstructible "no kubeconfig" () = Throw (Thrown "no kubeconfig")
  ∧ best_results {| registry := [aws_3] ++ unconstructible "no kubeconfig" :: [k3s_5] |} ()
    = best_results {| registry := [aws_3] ++ [k3s_5] |} ().
Proof.
  split; [reflexivity|].
  exact (proj1 (proj2 (proj2 (constructor_failure_absorbed
           [aws_3] [k3s_5] (unconstructible "no kubeconfig") ()
           (Thrown "no kubeconfig") eq_refl)))).
Defined.

Lemma best_results_highest_accuracy_witness :
  MapData (best_results {| registry := [kind_1; k3s_5] |} ()) !! "distribution"
    = Some {| value := "k3s"; accuracy := 5 |}
  ∧ MapData (best_results {| registry := [k3s_5; kind_1] |} ()) !! "distribution"
    = Some {| value := "k3s"; accuracy := 5 |}.
Proof.
  exact (best_results_highest_accuracy kind_1 k3s_5 () "distribution"
           {| value := "kind"; accuracy := 1 |} {| value := "k3s"; accuracy := 5 |}
           eq_refl eq_refl eq_refl).
Defined.

Lemma best_results_tie_later_wins_witness :
  MapData (best_results {| registry := [aws_3; gcp_3] |} ()) !! "cloudProvider"
  = Some {| value := "gcp"; accuracy := 3 |}.
Proof.
  exact (best_results_tie_later_wins aws_3 gcp_3 () "cloudProvider"
           {| value := "aws"; accuracy := 3 |} {| value := "gcp"; accuracy := 3 |}
           eq_refl eq_refl eq_refl).
Defined.

Lemma best_results_rejection_skipped_witness :
  best_results {| registry := [aws_3] ++ cloud_down :: [k3s_5] |} ()
  = best_results {| registry := [aws_3] ++ [k3s_5] |} ().
Proof.
  refine (best_results_rejection_skipped [aws_3] [k3s_5] cloud_down () _).
  eexists _, _. split; reflexivity.
Defined.

(** ** The Helm repository manager *)

Section HelmProperties.
Import Helm.

(** *** Lines *)

Lemma split_from_lines n : ∀ s piece,
  length s ≤ n →
  LF ∉ piece →
  (∀ line, line ∈ split_from piece s → LF ∉ line)
  ∧ length (split_from piece s) = S (length (filter (λ c, c = LF) s)).
Proof.
  induction n as [|n IH]; intros s piece Hlen Hpiece.
  { destruct s; [|simpl in Hlen; lia]. split; [|done].
    by intros line ->%list_elem_of_singleton. }
  destruct s as [|c rest].
  { split; [|done]. by intros line ->%list_elem_of_singleton. }
  cbn [length] in Hlen. cbn [split_from]. destruct (N.eqb_spec c LF) as [->|Hc].
  - destruct (IH rest [] ltac:(lia) ltac:(by apply not_elem_of_nil)) as [Hno Hcount].
    rewrite filter_cons_True by done. cbn [length]. rewrite Hcount. split; [|done].
    intros line [->|Hline]%elem_of_cons; [done|by apply Hno].
  - rewrite filter_cons_False by done.
    assert (LF ∉ piece ++ [c]) as Hpiece'.
    { rewrite elem_of_app, list_elem_of_singleton. intros [?|?]; [done|congruence]. }
    destruct rest as [|c' rest']; [by apply IH; [cbn [length]; lia|]|].
    cbn [length] in Hlen.
    destruct (N.eqb_spec c CR) as [->|Hcr], (N.eqb_spec c' LF) as [->|Hlf];
      cbn [andb]; try (apply IH; [cbn [length]; lia|done]).
    destruct (IH rest' [] ltac:(lia) ltac:(by apply not_elem_of_nil)) as [Hno Hcount].
    rewrite filter_cons_True by done. cbn [length]. rewrite Hcount. split; [|done].
    intros line [->|Hline]%elem_of_cons; [done|by apply Hno].
Qed.

(** X12: [output.split(/\r?\n/)] gives one more line than there are line
    feeds in the output, and no line holds a line feed. *)
Theorem split_lines_line_feeds (output : jsstring) :
  (∀ line, line ∈ split_lines output → LF ∉ line)
  ∧ length (split_lines output) = S (length (filter (λ c, c = LF) output)).
Proof.
  apply (split_from_lines (length output)); [done|apply not_elem_of_nil].
Qed.

(** *** Matches *)

Lemma match_from_Some key line k v :
  match_from key line = Some (k, v) ↔
  ∃ pre, k = key ++ pre ∧ line = pre ++ (EQUALS :: v) ∧ (EQUALS ∉ pre)
         ∧ ∀ c, c ∈ v → line_terminator c = false.
Proof.
  revert key. induction line as [|c rest IH]; intros key; simpl.
  - split; [done|]. intros (pre & _ & Hline & _). by destruct pre.
  - destruct (N.eqb_spec c EQUALS) as [->|Hc].
    + split.
      * destruct (forallb _ rest) eqn:Hrest; [|done]. intros [= <- <-].
        exists []. rewrite app_nil_r. split_and!; [done..|apply not_elem_of_nil|].
        intros c Hin. rewrite forallb_forall in Hrest.
        apply list_elem_of_In, Hrest in Hin. by apply negb_true_iff in Hin.
      * intros (pre & -> & Hline & Hpre & Hv). destruct pre as [|c pre].
        -- simpl in Hline. injection Hline as ->. rewrite app_nil_r.
           replace (forallb _ v) with true; [done|]. symmetry.
           apply forallb_forall. intros c Hin%list_elem_of_In.
           by rewrite (Hv c Hin).
        -- injection Hline as <- _. destruct Hpre. apply elem_of_cons. by left.
    + rewrite IH. split.
      * intros (pre & -> & -> & Hpre & Hv). exists (c :: pre).
        rewrite <- app_assoc. split_and!; [done..| |done].
        intros [?|?]%elem_of_cons; congruence.
      * intros (pre & -> & Hline & Hpre & Hv). destruct pre as [|c' pre].
        -- injection Hline as -> _. done.
        -- injection Hline as <- ->. exists pre. rewrite <- app_assoc.
           split_and!; [done..| |done].
           intros Hin. apply Hpre, elem_of_cons. by right.
Qed.

(** X13: [line.match(envVarMatcher)] succeeds exactly on the lines that are
    a key without [=], then [=], then a value without line terminator, and
    its groups are that key and that value: the line is split at its first
    [=]. *)
Theorem envVarMatcher_matches (line k v : jsstring) :
  envVarMatcher line = Some (k, v) ↔
  line = k ++ (EQUALS :: v) ∧ (EQUALS ∉ k) ∧ ∀ c, c ∈ v → line_terminator c = false.
Proof.
  unfold envVarMatcher. rewrite match_from_Some. split.
  - by intros (pre & -> & -> & Hpre & Hv).
  - intros (-> & Hk & Hv). by exists k.
Qed.

(** *** The environment *)

Section ParseHelmEnv.
Context {J : Type} (JSON_parse : jsstring → completion J).

Lemma parse_loop_Throw (ms : list (jsstring * jsstring)) (env : gmap jsstring J) :
  (∃ e, for_of ms (λ env kv, v ← JSON_parse kv.2; mret (<[kv.1 := v]> env)) env = Throw e)
  ↔ ∃ kv e, kv ∈ ms ∧ JSON_parse kv.2 = Throw e.
Proof.
  revert env. induction ms as [|m ms IH]; intros env; simpl.
  - split; [by intros [e [=]]|]. intros (kv & e & Hin & _). by apply elem_of_nil in Hin.
  - destruct (JSON_parse m.2) as [v|e] eqn:Hm; simpl.
    + rewrite IH. split.
      * intros (kv & e & Hin & He). exists kv, e. split; [|done].
        apply elem_of_cons. by right.
      * intros (kv & e & [->|Hin]%elem_of_cons & He); [congruence|eauto].
    + split; [|eauto]. intros _. exists m, e. split; [|done]. apply elem_of_cons. by left.
Qed.

Lemma parse_loop_Normal (ms : list (jsstring * jsstring)) (env0 env : gmap jsstring J) :
  for_of ms (λ env kv, v ← JSON_parse kv.2; mret (<[kv.1 := v]> env)) env0 = Normal env →
  ∀ k v, env !! k = Some v →
    env0 !! k = Some v ∨ ∃ value, (k, value) ∈ ms ∧ JSON_parse value = Normal v.
Proof.
  revert env0. induction ms as [|[k' value'] ms IH]; intros env0; simpl.
  - intros [= ->] k v Hk. by left.
  - destruct (JSON_parse value') as [v'|e] eqn:Hm; simpl; [|done].
    intros Hrest k v Hk. destruct (IH _ Hrest k v Hk) as [Hk0|(value & Hin & Hv)].
    + destruct (decide (k' = k)) as [->|Hne].
      * rewrite lookup_insert_eq in Hk0. injection Hk0 as ->.
        right. exists value'. split; [|done]. apply elem_of_cons. by left.
      * rewrite lookup_insert_ne in Hk0 by done. by left.
    + right. exists value. split; [|done]. apply elem_of_cons. by right.
Qed.

Lemma parse_loop_keys (ms : list (jsstring * jsstring)) (env0 env : gmap jsstring J) :
  for_of ms (λ env kv, v ← JSON_parse kv.2; mret (<[kv.1 := v]> env)) env0 = Normal env →
  ∀ k, is_Some (env0 !! k) ∨ (∃ value, (k, value) ∈ ms) → is_Some (env !! k).
Proof.
  revert env0. induction ms as [|[k' value'] ms IH]; intros env0; simpl.
  - intros [= ->] k [?|(value & Hin)]; [done|]. by apply elem_of_nil in Hin.
  - destruct (JSON_parse value') as [v'|e] eqn:Hm; simpl; [|done].
    intros Hrest k Hk. apply (IH _ Hrest). destruct Hk as [Hk|(value & Hin)].
    + left. destruct (decide (k' = k)) as [->|Hne];
        [by rewrite lookup_insert_eq|by rewrite lookup_insert_ne].
    + apply elem_of_cons in Hin as [[= -> ->]|Hin]; [|right; eauto].
      left. by rewrite lookup_insert_eq.
Qed.

Lemma matches_of_lines (output : jsstring) k value :
  (k, value) ∈ iter_filterMap (split_lines output) envVarMatcher ↔
  ∃ line, line ∈ split_lines output ∧ envVarMatcher line = Some (k, value).
Proof. unfold iter_filterMap. apply list_elem_of_omap. Qed.

(** X14: reading the output of [helm env] fails exactly when some line that
    matches has a value [JSON.parse] throws on; lines that do not match are
    never the cause. *)
Theorem parseHelmEnv_output_rejects_iff (output : jsstring) :
  (∃ e, parseHelmEnv_output JSON_parse output = Throw e)
  ↔ ∃ line k value e,
      line ∈ split_lines output
      ∧ envVarMatcher line = Some (k, value)
      ∧ JSON_parse value = Throw e.
Proof.
  unfold parseHelmEnv_output. rewrite parse_loop_Throw. split.
  - intros ([k value] & e & Hin & He). apply matches_of_lines in Hin as (line & ? & ?).
    by exists line, k, value, e.
  - intros (line & k & value & e & Hline & Hm & He). exists (k, value), e.
    split; [|done]. apply matches_of_lines. eauto.
Qed.

(** X15: when reading the output of [helm env] succeeds, the variables of
    the environment are the keys of the lines that match, and the value of
    each is what [JSON.parse] gave for the value of such a line. *)
Theorem parseHelmEnv_output_variables (output : jsstring) (env : gmap jsstring J) :
  parseHelmEnv_output JSON_parse output = Normal env →
  ∀ k,
    (is_Some (env !! k) ↔
     ∃ line value, line ∈ split_lines output ∧ envVarMatcher line = Some (k, value))
    ∧ ∀ v, env !! k = Some v →
        ∃ line value, line ∈ split_lines output
                      ∧ envVarMatcher line = Some (k, value)
                      ∧ JSON_parse value = Normal v.
Proof.
  unfold parseHelmEnv_output. intros Henv k. split; [split|].
  - intros [v Hv]. destruct (parse_loop_Normal _ _ _ Henv k v Hv) as [?|(value & Hin & _)];
      [done|].
    apply matches_of_lines in Hin as (line & ? & ?). eauto.
  - intros (line & value & Hline & Hm). apply (parse_loop_keys _ _ _ Henv). right.
    exists value. apply matches_of_lines. eauto.
  - intros v Hv. destruct (parse_loop_Normal _ _ _ Henv k v Hv) as [?|(value & Hin & ?)];
      [done|].
    apply matches_of_lines in Hin as (line & ? & ?). eauto.
Qed.

End ParseHelmEnv.

(** *** The arguments of [helm repo add] *)

Lemma push_attribute_given args flag attribute :
  push_attribute args flag attribute =
  if given attribute then args ++ [flag; default EmptyString attribute] else args.
Proof.
  unfold push_attribute, given. destruct attribute as [v|]; [|done].
  by destruct (String.eqb v EmptyString).
Qed.

Lemma push_attribute_prefix args flag attribute :
  args `prefix_of` push_attribute args flag attribute.
Proof.
  rewrite push_attribute_given. destruct (given attribute); [|done].
  by apply prefix_app_r.
Qed.

Lemma push_attribute_pair args flag v :
  v ≠ EmptyString →
  push_attribute args flag (Some v) !! length args = Some flag
  ∧ push_attribute args flag (Some v) !! S (length args) = Some v.
Proof.
  intros Hv. unfold push_attribute.
  destruct (String.eqb_spec v EmptyString) as [?|_]; [done|].
  split.
  - by rewrite lookup_app_r, Nat.sub_diag by lia.
  - rewrite lookup_app_r by lia. by replace (S (length args) - length args) with 1 by lia.
Qed.

Lemma push_attribute_found args flag v later :
  v ≠ EmptyString →
  push_attribute args flag (Some v) `prefix_of` later →
  ∃ i, length args ≤ i ∧ later !! i = Some flag ∧ later !! S i = Some v.
Proof.
  intros Hv Hprefix. destruct (push_attribute_pair args flag v Hv) as [Hflag Hvalue].
  exists (length args). split_and!; [done|by eapply prefix_lookup_Some..].
Qed.

Lemma length_push_attribute args flag attribute :
  length (push_attribute args flag attribute)
  = length args + 2 * Nat.b2n (given attribute).
Proof.
  rewrite push_attribute_given. destruct (given attribute); simpl; [|lia].
  rewrite length_app. simpl. lia.
Qed.

(** X16: with no option set (no [insecureSkipTlsVerify], every other
    attribute absent or empty), [addCustomRepo] logs the line and runs the
    helm command that [addRepo] logs and runs, and settles as it does. *)
Theorem addCustomRepo_plain_is_addRepo
    (executeHelm : list string → completion string) (repo : HelmRepo) :
  insecureSkipTlsVerify repo ≠ Some true →
  given (username repo) = false →
  given (password repo) = false →
  given (caFile repo) = false →
  given (keyFile repo) = false →
  given (certFile repo) = false →
  addCustomRepo executeHelm repo = addRepo executeHelm repo.
Proof.
  intros Hinsecure Hu Hp Hca Hkey Hcert. unfold addCustomRepo, addRepo, addCustomRepo_args.
  rewrite !push_attribute_given, Hu, Hp, Hca, Hkey, Hcert.
  by destruct (insecureSkipTlsVerify repo) as [[]|].
Qed.

(** X17: the arguments [addCustomRepo] runs helm with start with [repo],
    [add], the name and the url; every attribute that is given (a string
    that is not empty) stands right after its flag, further on; and there
    are as many arguments as that takes, so an attribute that is absent or
    empty brings neither flag nor value. *)
Theorem addCustomRepo_args_attributes (repo : HelmRepo) :
  take 4 (addCustomRepo_args repo) = ["repo"; "add"; name repo; url repo]
  ∧ (∀ flag attribute v,
       (flag, attribute) ∈ [("--username", username repo); ("--password", password repo);
                            ("--ca-file", caFile repo); ("--key-file", keyFile repo);
                            ("--cert-file", certFile repo)] →
       attribute = Some v → v ≠ EmptyString →
       ∃ i, 4 ≤ i ∧ addCustomRepo_args repo !! i = Some flag
            ∧ addCustomRepo_args repo !! S i = Some v)
  ∧ length (addCustomRepo_args repo)
    = 4 + (if decide (insecureSkipTlsVerify repo = Some true) then 1 else 0)
      + 2 * (Nat.b2n (given (username repo)) + Nat.b2n (given (password repo))
             + Nat.b2n (given (caFile repo)) + Nat.b2n (given (keyFile repo))
             + Nat.b2n (given (certFile repo))).
Proof.
  unfold addCustomRepo_args.
  set (a0 := ["repo"; "add"; name repo; url repo]).
  set (a1 := match insecureSkipTlsVerify repo with
             | Some true => a0 ++ ["--insecure-skip-tls-verify"]
             | _ => a0
             end).
  set (a2 := push_attribute a1 "--username" (username repo)).
  set (a3 := push_attribute a2 "--password" (password repo)).
  set (a4 := push_attribute a3 "--ca-file" (caFile repo)).
  set (a5 := push_attribute a4 "--key-file" (keyFile repo)).
  set (a6 := push_attribute a5 "--cert-file" (certFile repo)).
  assert (a0 `prefix_of` a1) as H01
    by (subst a1; destruct (insecureSkipTlsVerify repo) as [[]|];
        [by apply prefix_app_r|done..]).
  assert (a1 `prefix_of` a2) as H12 by apply push_attribute_prefix.
  assert (a2 `prefix_of` a3) as H23 by apply push_attribute_prefix.
  assert (a3 `prefix_of` a4) as H34 by apply push_attribute_prefix.
  assert (a4 `prefix_of` a5) as H45 by apply push_attribute_prefix.
  assert (a5 `prefix_of` a6) as H56 by apply push_attribute_prefix.
  assert (4 ≤ length a1) as Hlen1 by (apply prefix_length in H01; simpl in H01; lia).
  pose proof (prefix_length _ _ H12). pose proof (prefix_length _ _ H23).
  pose proof (prefix_length _ _ H34). pose proof (prefix_length _ _ H45).
  split_and!.
  - assert (a0 `prefix_of` a6) as [rest ->] by (by repeat (etrans; [eassumption|])).
    done.
  - intros flag attribute v Hin -> Hv.
    repeat (apply elem_of_cons in Hin as [[= -> Hattr]|Hin]);
      [..|by apply elem_of_nil in Hin].
    + destruct (push_attribute_found a1 "--username" v a6 Hv) as (i & ? & ? & ?).
      { rewrite Hattr. by repeat (etrans; [eassumption|]). }
      exists i. split_and!; [lia|done..].
    + destruct (push_attribute_found a2 "--password" v a6 Hv) as (i & ? & ? & ?).
      { rewrite Hattr. by repeat (etrans; [eassumption|]). }
      exists i. split_and!; [lia|done..].
    + destruct (push_attribute_found a3 "--ca-file" v a6 Hv) as (i & ? & ? & ?).
      { rewrite Hattr. by repeat (etrans; [eassumption|]). }
      exists i. split_and!; [lia|done..].
    + destruct (push_attribute_found a4 "--key-file" v a6 Hv) as (i & ? & ? & ?).
      { rewrite Hattr. by repeat (etrans; [eassumption|]). }
      exists i. split_and!; [lia|done..].
    + destruct (push_attribute_found a5 "--cert-file" v a6 Hv) as (i & ? & ? & ?).
      { by rewrite Hattr. }
      exists i. split_and!; [lia|done..].
  - subst a6 a5 a4 a3 a2. rewrite !length_push_attribute.
    assert (length a1 = 4 + (if decide (insecureSkipTlsVerify repo = Some true)
                             then 1 else 0)) as ->; [|lia].
    subst a1. by destruct (insecureSkipTlsVerify repo) as [[]|].
Qed.

End HelmProperties.

(** ** Instances of the conditional statements on the loop *)

Lemma best_results_entry_origin_witness :
  ∃ i (DetectorClass : ClusterDetectionConstructor unit string),
    registry {| registry := [kind_1; k3s_5] |} !! i = Some DetectorClass
    ∧ detection () DetectorClass
      = Normal ("distribution", Some {| value := "k3s"; accuracy := 5 |})
    ∧ ∀ j (DetectorClass' : ClusterDetectionConstructor unit string) r',
        i < j → registry {| registry := [kind_1; k3s_5] |} !! j = Some DetectorClass' →
        detection () DetectorClass' = Normal ("distribution", Some r') →
        PrimFloat.leb 5 (accuracy r') = false.
Proof.
  exact (best_results_entry_origin {| registry := [kind_1; k3s_5] |} () "distribution"
           {| value := "k3s"; accuracy := 5 |} eq_refl).
Defined.

Lemma best_results_other_detector_irrelevant_witness :
  MapData (best_results {| registry := [kind_1] ++ aws_3 :: [k3s_5] |} ()) !! "distribution"
  = MapData (best_results {| registry := [kind_1] ++ [k3s_5] |} ()) !! "distribution".
Proof.
  refine (best_results_other_detector_irrelevant [kind_1] [k3s_5] aws_3 ()
            "distribution" _).
  intros d Hd. discriminate Hd.
Defined.

Lemma best_results_nan_entry_sticks_witness :
  MapData (best_results
             {| registry := [succeeding "distribution" "unknown" nan] ++ [kind_1; k3s_5] |}
             ()) !! "distribution"
  = Some {| value := "unknown"; accuracy := nan |}.
Proof.
  exact (best_results_nan_entry_sticks [succeeding "distribution" "unknown" nan]
           [kind_1; k3s_5] () "distribution" {| value := "unknown"; accuracy := nan |}
           eq_refl eq_refl).
Defined.

Lemma best_results_nan_never_replaces_witness :
  best_results {| registry := [kind_1] ++ [succeeding "distribution" "unknown" nan] |} ()
  = best_results {| registry := [kind_1] |} ().
Proof.
  exact (best_results_nan_never_replaces [kind_1]
           (succeeding "distribution" "unknown" nan) () "distribution"
           {| value := "unknown"; accuracy := nan |} eq_refl eq_refl
           (ex_intro _ {| value := "kind"; accuracy := 1 |} eq_refl)).
Defined.

Lemma detectForCluster_waits_for_every_probe_witness :
  detectForCluster_scheduled [0] {| registry := [kind_1; k3s_5] |} () = None.
Proof.
  refine (detectForCluster_waits_for_every_probe [0] {| registry := [kind_1; k3s_5] |} ()
            1 k3s_5
            {| key := "distribution";
               detect := Normal (Some {| value := "k3s"; accuracy := 5 |}) |}
            eq_refl eq_refl _).
  intros Hin. apply elem_of_cons in Hin as [Hin|Hin]; [discriminate Hin|].
  by apply elem_of_nil in Hin.
Defined.

Lemma best_results_last_maximum_witness :
  MapData (best_results {| registry := [aws_3; gcp_3] |} ()) !! "cloudProvider"
  = Some {| value := "gcp"; accuracy := 3 |}.
Proof.
  refine (best_results_last_maximum {| registry := [aws_3; gcp_3] |} () 1 gcp_3
            "cloudProvider" {| value := "gcp"; accuracy := 3 |} eq_refl eq_refl _ _).
  - intros [|j] D r' Hj HD Hr'; [|lia]. injection HD as <-. injection Hr' as <-.
    reflexivity.
  - intros [|[|j]] D r' Hj HD Hr'; [lia..|discriminate HD].
Defined.

Lemma best_results_strict_maximum_witness :
  MapData (best_results {| registry := [k3s_5; kind_1] |} ()) !! "distribution"
  = Some {| value := "k3s"; accuracy := 5 |}.
Proof.
  refine (best_results_strict_maximum {| registry := [k3s_5; kind_1] |} () 0 k3s_5
            "distribution" {| value := "k3s"; accuracy := 5 |} eq_refl eq_refl _).
  intros [|[|j]] D r' Hj HD Hr'; [done| |discriminate HD].
  injection HD as <-. injection Hr' as <-. reflexivity.
Defined.

(** ** Instances of the conditional statements on Helm *)

(** The output [A=1], line feed, [B], read with the identity for
    [JSON.parse]. *)
Lemma parseHelmEnv_output_variables_witness :
  (is_Some (({[ [65%N] := [49%N] ]} : gmap (list N) (list N)) !! [65%N]) ↔
   ∃ line value, line ∈ Helm.split_lines [65; 61; 49; 10; 66]%N
                 ∧ Helm.envVarMatcher line = Some ([65%N], value))
  ∧ ∀ v, ({[ [65%N] := [49%N] ]} : gmap (list N) (list N)) !! [65%N] = Some v →
      ∃ line value, line ∈ Helm.split_lines [65; 61; 49; 10; 66]%N
                    ∧ Helm.envVarMatcher line = Some ([65%N], value)
                    ∧ Normal value = Normal v.
Proof.
  exact (parseHelmEnv_output_variables (λ value, Normal value)
           [65; 61; 49; 10; 66]%N {[ [65%N] := [49%N] ]} eq_refl [65%N]).
Defined.

Lemma addCustomRepo_plain_is_addRepo_witness :
  Helm.addCustomRepo (λ _, Normal EmptyString) Helm.bitnami
  = Helm.addRepo (λ _, Normal EmptyString) Helm.bitnami.
Proof.
  apply (addCustomRepo_plain_is_addRepo (λ _, Normal EmptyString) Helm.bitnami);
    [discriminate|reflexivity..].
Defined.

(** ** Registering one more detector *)

(** X18: after [add], a pass leaves in [results], for every key, the entry
    it left before or the result of the added detector for that key; no key
    is lost. *)
Theorem add_changes_own_key_only {Cluster Value : Type}
    (σ σ' : gmap loc (DetectorRegistry Cluster Value)) (this l : loc)
    (obj : DetectorRegistry Cluster Value)
    (detectorClass : ClusterDetectionConstructor Cluster Value) (cluster : Cluster) :
  σ !! this = Some obj →
  add this detectorClass σ = Some (l, σ') →
  ∃ obj', σ' !! l = Some obj'
    ∧ ∀ k,
        (is_Some (MapData (best_results obj cluster) !! k) →
         is_Some (MapData (best_results obj' cluster) !! k))
        ∧ (MapData (best_results obj' cluster) !! k
           = MapData (best_results obj cluster) !! k
           ∨ ∃ d, detection cluster detectorClass = Normal (k, Some d)
                  ∧ MapData (best_results obj' cluster) !! k = Some d).
Proof.
  intros Hthis Hadd. unfold add in Hadd. rewrite Hthis in Hadd.
  injection Hadd as <- <-.
  exists {| registry := registry obj ++ [detectorClass] |}.
  split; [by rewrite lookup_insert_eq|]. intros k.
  assert (best_results {| registry := registry obj ++ [detectorClass] |} cluster
          = merge (best_results obj cluster) (detection cluster detectorClass)) as ->.
  { unfold best_results, detections. simpl. by rewrite fmap_app, fold_left_app. }
  rewrite merge_lookup.
  destruct (detection cluster detectorClass) as [[k' [d|]]|e]; [|by split; [|left]..].
  case_decide as Hk; [subst k'|by split; [|left]].
  destruct (MapData (best_results obj cluster) !! k) as [stored|].
  - destruct (PrimFloat.leb _ _); (split; [done|]); [right; eauto|by left].
  - split; [done|]. right; eauto.
Qed.

Lemma add_changes_own_key_only_witness :
  ∃ obj', (<[1%positive := {| registry := [kind_1] ++ [aws_3] |}]>
             ({[1%positive := {| registry := [kind_1] |}]}
                : gmap loc (DetectorRegistry unit string))) !! 1%positive = Some obj'
    ∧ ∀ k,
        (is_Some (MapData (best_results {| registry := [kind_1] |} ()) !! k) →
         is_Some (MapData (best_results obj' ()) !! k))
        ∧ (MapData (best_results obj' ()) !! k
           = MapData (best_results {| registry := [kind_1] |} ()) !! k
           ∨ ∃ d, detection () aws_3 = Normal (k, Some d)
                  ∧ MapData (best_results obj' ()) !! k = Some d).
Proof.
  exact (add_changes_own_key_only
           {[1%positive := {| registry := [kind_1] |}]}
           (<[1%positive := {| registry := [kind_1] ++ [aws_3] |}]>
              {[1%positive := {| registry := [kind_1] |}]})
           1%positive 1%positive {| registry := [kind_1] |} aws_3 () eq_refl eq_refl).
Defined.

(** ** Registering a detector twice *)

(** An iteration of the loop on the run of a constructor does to the entry
    of a key what the spec's words say. *)
Lemma merge_lookup_in_words {Cluster Value : Type}
    (results : MapObject (ClusterDetectionResult Value))
    (DetectorClass : ClusterDetectionConstructor Cluster Value) (cluster : Cluster) k :
  MapData (merge results (detection cluster DetectorClass)) !! k
  = spec_fold_step (MapData results !! k) (spec_contribution k DetectorClass cluster).
Proof.
  rewrite merge_lookup. unfold detection, spec_contribution.
  destruct (DetectorClass cluster) as [detector|e]; simpl; [|done].
  destruct (detect detector) as [[d|]|e]; simpl; [|done..].
  case_decide; [|done]. simpl. by destruct (MapData results !! k).
Qed.

Section RunsProperties.
Context {Cluster World Value : Type}.

Lemma detections_in_app (worlds : nat → World)
    (l1 l2 : list (ClusterDetectionConstructor (Cluster * World) Value)) (cluster : Cluster) :
  detections_in worlds {| registry := l1 ++ l2 |} cluster
  = detections_in worlds {| registry := l1 |} cluster
    ++ imap (λ i DetectorClass, detection (cluster, worlds (length l1 + i)) DetectorClass) l2.
Proof. unfold detections_in. simpl. by rewrite imap_app. Qed.

Lemma detectForCluster_in_best_results (worlds : nat → World)
    (this : DetectorRegistry (Cluster * World) Value) (cluster : Cluster) :
  detectForCluster_in worlds this cluster
  = Normal (projection (best_results_in worlds this cluster)).
Proof.
  unfold detectForCluster_in, best_results_in.
  by rewrite (for_of_total _ _ merge loop_body_total).
Qed.

(** With one world for every run, these are the pass and the [results] of
    a registry of constructors that depend on the cluster only. *)
Lemma detections_in_one_world (w : World)
    (this : DetectorRegistry (Cluster * World) Value) (cluster : Cluster) :
  detections_in (λ _, w) this cluster = detections this (cluster, w).
Proof. unfold detections_in, detections. apply imap_const. Qed.

(** C9: [add] pushes the constructor at the end of the array of the
    receiver, touches no other object, and returns the receiver, so that
    calls chain.  Chained twice with the same constructor, it leaves a
    registry whose pass runs that constructor twice more, after the runs
    there were, each run in the world it meets; the pass resolves, and for
    every key the entry of [results] is the entry the earlier runs left,
    then what the first of the two runs contributes for the key put in by
    the rule of the merge, then what the second one contributes put in by
    the same rule: a run that fails or returns nothing leaves what the
    other one brought. *)
Theorem add_appends_and_returns_this
    (σ : gmap loc (DetectorRegistry (Cluster * World) Value)) (this : loc)
    (obj : DetectorRegistry (Cluster * World) Value)
    (detectorClass : ClusterDetectionConstructor (Cluster * World) Value)
    (cluster : Cluster) (worlds : nat → World) :
  σ !! this = Some obj →
  ∃ σ1 obj1 σ2 obj2,
    add this detectorClass σ = Some (this, σ1)
    ∧ σ1 !! this = Some obj1
    ∧ registry obj1 = registry obj ++ [detectorClass]
    ∧ (∀ l, l ≠ this → σ1 !! l = σ !! l)
    ∧ (add this detectorClass σ ≫= λ r, add r.1 detectorClass r.2) = Some (this, σ2)
    ∧ σ2 !! this = Some obj2
    ∧ registry obj2 = registry obj ++ [detectorClass; detectorClass]
    ∧ (∀ l, l ≠ this → σ2 !! l = σ !! l)
    ∧ detections_in worlds obj2 cluster
      = detections_in worlds obj cluster
        ++ [detection (cluster, worlds (length (registry obj))) detectorClass;
            detection (cluster, worlds (S (length (registry obj)))) detectorClass]
    ∧ detectForCluster_in worlds obj2 cluster
      = Normal (projection (best_results_in worlds obj2 cluster))
    ∧ (∀ k,
         MapData (best_results_in worlds obj2 cluster) !! k
         = spec_fold_step
             (spec_fold_step
                (MapData (best_results_in worlds obj cluster) !! k)
                (spec_contribution k detectorClass
                   (cluster, worlds (length (registry obj)))))
             (spec_contribution k detectorClass
                (cluster, worlds (S (length (registry obj))))))
    ∧ (∀ w,
         detections obj2 (cluster, w)
         = detections obj (cluster, w)
           ++ [detection (cluster, w) detectorClass; detection (cluster, w) detectorClass]
         ∧ best_results obj2 (cluster, w)
           = merge (merge (best_results obj (cluster, w))
                      (detection (cluster, w) detectorClass))
               (detection (cluster, w) detectorClass)).
Proof.
  intros Hthis.
  set (obj1 := {| registry := registry obj ++ [detectorClass] |}).
  set (obj2 := {| registry := registry obj ++ [detectorClass; detectorClass] |}).
  exists (<[this := obj1]> σ), obj1, (<[this := obj2]> σ), obj2.
  assert (detections_in worlds obj2 cluster
          = detections_in worlds obj cluster
            ++ [detection (cluster, worlds (length (registry obj))) detectorClass;
                detection (cluster, worlds (S (length (registry obj)))) detectorClass])
    as Hruns.
  { subst obj2. rewrite detections_in_app. simpl.
    rewrite Nat.add_0_r, Nat.add_1_r. by destruct obj. }
  split_and!.
  - unfold add. by rewrite Hthis.
  - by rewrite lookup_insert_eq.
  - done.
  - intros l Hl. by rewrite lookup_insert_ne.
  - unfold add at 2. rewrite Hthis. simpl. unfold add. rewrite lookup_insert_eq.
    subst obj1 obj2. simpl. by rewrite insert_insert_eq, <- app_assoc.
  - by rewrite lookup_insert_eq.
  - done.
  - intros l Hl. by rewrite lookup_insert_ne.
  - done.
  - apply detectForCluster_in_best_results.
  - intros k. unfold best_results_in at 1. rewrite Hruns, fold_left_app.
    cbn [fold_left]. by rewrite !merge_lookup_in_words.
  - intros w. unfold best_results, detections. subst obj2. simpl.
    by rewrite fmap_app, fold_left_app.
Qed.

End RunsProperties.

(** The cluster answers the third run only: registered once after
    [kind_1], the detector fails and "kind" stays; registered twice, its
    second run brings "k3s". *)
Example duplicate_registration_second_run :
  MapData (best_results_in reachable_at_2
             {| registry := [kind_1_anywhere; k3s_5_when_reachable] |} ())
    !! "distribution"
  = Some {| value := "kind"; accuracy := 1 |}
  ∧ MapData (best_results_in reachable_at_2
               {| registry := [kind_1_anywhere; k3s_5_when_reachable;
                               k3s_5_when_reachable] |} ())
      !! "distribution"
    = Some {| value := "k3s"; accuracy := 5 |}.
Proof. by split. Qed.

Lemma add_appends_and_returns_this_witness :
  ∃ σ1 obj1 σ2 obj2,
    add 1%positive k3s_5_when_reachable
      {[1%positive := {| registry := [kind_1_anywhere] |}]} = Some (1%positive, σ1)
    ∧ σ1 !! 1%positive = Some obj1
    ∧ registry obj1 = [kind_1_anywhere] ++ [k3s_5_when_reachable]
    ∧ (∀ l, l ≠ 1%positive →
            σ1 !! l = ({[1%positive := {| registry := [kind_1_anywhere] |}]}
                        : gmap loc (DetectorRegistry (unit * bool) string)) !! l)
    ∧ (add 1%positive k3s_5_when_reachable
         {[1%positive := {| registry := [kind_1_anywhere] |}]}
         ≫= λ r, add r.1 k3s_5_when_reachable r.2) = Some (1%positive, σ2)
    ∧ σ2 !! 1%positive = Some obj2
    ∧ registry obj2 = [kind_1_anywhere] ++ [k3s_5_when_reachable; k3s_5_when_reachable]
    ∧ (∀ l, l ≠ 1%positive →
            σ2 !! l = ({[1%positive := {| registry := [kind_1_anywhere] |}]}
                        : gmap loc (DetectorRegistry (unit * bool) string)) !! l)
    ∧ detections_in reachable_at_2 obj2 ()
      = detections_in reachable_at_2 {| registry := [kind_1_anywhere] |} ()
        ++ [detection ((), reachable_at_2 1) k3s_5_when_reachable;
            detection ((), reachable_at_2 2) k3s_5_when_reachable]
    ∧ detectForCluster_in reachable_at_2 obj2 ()
      = Normal (projection (best_results_in reachable_at_2 obj2 ()))
    ∧ (∀ k,
         MapData (best_results_in reachable_at_2 obj2 ()) !! k
         = spec_fold_step
             (spec_fold_step
                (MapData (best_results_in reachable_at_2
                            {| registry := [kind_1_anywhere] |} ()) !! k)
                (spec_contribution k k3s_5_when_reachable ((), reachable_at_2 1)))
             (spec_contribution k k3s_5_when_reachable ((), reachable_at_2 2)))
    ∧ (∀ w,
         detections obj2 ((), w)
         = detections {| registry := [kind_1_anywhere] |} ((), w)
           ++ [detection ((), w) k3s_5_when_reachable;
               detection ((), w) k3s_5_when_reachable]
         ∧ best_results obj2 ((), w)
           = merge (merge (best_results {| registry := [kind_1_anywhere] |} ((), w))
                      (detection ((), w) k3s_5_when_reachable))
               (detection ((), w) k3s_5_when_reachable)).
Proof.
  exact (add_appends_and_returns_this
           {[1%positive := {| registry := [kind_1_anywhere] |}]} 1%positive
           {| registry := [kind_1_anywhere] |} k3s_5_when_reachable ()
           reachable_at_2 eq_refl).
Defined.
